(** * prom-config-watcher: a model of [main.go] and its properties

  The program watches a directory, debounces change notifications with a
  single-shot timer, rewrites every file of the watched tree through
  [os.ExpandEnv] into a flat target directory and posts a reload request.

  Layout of the development:
  - [GoTime], [GoOs], [GoPath]: the pieces of the Go standard library the
    program calls ([time.Time.Before], [os.Expand], [path.Split]);
  - [Watcher]: the program itself, function by function, over an explicit
    target file system and an effect trace;
  - the properties, one per numbered claim. *)

From Stdlib Require Import ZArith Lia Bool List Ascii String.
From stdpp Require Import base option list strings gmap fin_maps.
Import ListNotations.

Local Open Scope string_scope.
Local Open Scope list_scope.

(* ===================================================================== *)
(** ** [time]: instants as the program compares them *)
(* ===================================================================== *)

Module GoTime.

(** A [time.Time] carries a wall-clock reading and, when it comes from
    [time.Now], a monotonic reading as well.  [wall] counts nanoseconds
    since January 1, year 1 (the zero [Time]); [mono] is the optional
    monotonic reading. *)
Record Time : Type := mkTime { wall : Z; mono : option Z }.

(** [time.Time{}] *)
Definition zero : Time := {| wall := 0; mono := None |}.

(** A value produced by [os.FileInfo.ModTime]: wall clock only. *)
Definition modTime (w : Z) : Time := {| wall := w; mono := None |}.

(** A value produced by [time.Now]: wall clock and monotonic clock. *)
Definition now (w m : Z) : Time := {| wall := w; mono := Some m |}.

(** [t.Before(u)]: when both instants carry a monotonic reading those are
    compared, otherwise the wall-clock readings are. *)
Definition Before (t u : Time) : bool :=
  match mono t, mono u with
  | Some a, Some b => (a <? b)%Z
  | _, _ => (wall t <? wall u)%Z
  end.

End GoTime.

(* ===================================================================== *)
(** ** [os]: environment expansion *)
(* ===================================================================== *)

Module GoOs.

Definition is_byte (a b : ascii) : bool := Ascii.eqb a b.

Definition in_range (lo hi c : ascii) : bool :=
  (nat_of_ascii lo <=? nat_of_ascii c)%nat && (nat_of_ascii c <=? nat_of_ascii hi)%nat.

(** [isShellSpecialVar]: the one-character shell variables. *)
Definition isShellSpecialVar (c : ascii) : bool :=
  is_byte c "*" || is_byte c "#" || is_byte c "$" || is_byte c "@"
  || is_byte c "!" || is_byte c "?" || is_byte c "-" || in_range "0" "9" c.

(** [isAlphaNum]: underscore, digits and ASCII letters. *)
Definition isAlphaNum (c : ascii) : bool :=
  is_byte c "_" || in_range "0" "9" c || in_range "a" "z" c || in_range "A" "Z" c.

(** Index of the first closing brace of [s], if any. *)
Fixpoint indexBrace (s : list ascii) : option nat :=
  match s with
  | [] => None
  | c :: r => if is_byte c "}" then Some 0%nat else S <$> indexBrace r
  end.

(** Length of the longest alphanumeric prefix. *)
Fixpoint scanAlphaNum (s : list ascii) : nat :=
  match s with
  | c :: r => if isAlphaNum c then S (scanAlphaNum r) else 0%nat
  | [] => 0%nat
  end.

(** [getShellName s]: the name that starts [s] (the text after a dollar
    sign) and the number of bytes it occupies.  The callers pass a
    non-empty [s]; the first equation is never reached by [Expand]. *)
Definition getShellName (s : list ascii) : list ascii * nat :=
  match s with
  | [] => ([], 0%nat)
  | c0 :: r =>
      if is_byte c0 "{" then
        match r with
        | c1 :: c2 :: _ =>
            if isShellSpecialVar c1 && is_byte c2 "}" then ([c1], 3%nat)
            else
              match indexBrace r with
              | Some 0%nat => ([], 2%nat)
              | Some k => (firstn k r, (k + 2)%nat)
              | None => ([], 1%nat)
              end
        | _ =>
            match indexBrace r with
            | Some 0%nat => ([], 2%nat)
            | Some k => (firstn k r, (k + 2)%nat)
            | None => ([], 1%nat)
            end
        end
      else if isShellSpecialVar c0 then ([c0], 1%nat)
      else let i := scanAlphaNum s in (firstn i s, i)
  end.

(** What [Expand] emits for the reference [(name, w)] found after a
    dollar sign: nothing for invalid syntax (empty name, bytes eaten), the
    dollar sign itself when no name follows, the mapped value otherwise. *)
Definition emit (mapping : string -> string) (name : list ascii) (w : nat) : list ascii :=
  match name with
  | [] => match w with O => ["$"%char] | S _ => [] end
  | _ :: _ => list_ascii_of_string (mapping (string_of_list_ascii name))
  end.

(** The scanning loop of [os.Expand].  [skip] is the number of bytes of
    [s] that the reference just handled still covers (the loop's
    [j += w]); bytes outside references are copied. *)
Fixpoint expandFrom (mapping : string -> string) (skip : nat) (s : list ascii) : list ascii :=
  match s with
  | [] => []
  | c :: rest =>
      match skip with
      | S k => expandFrom mapping k rest
      | O =>
          if is_byte c "$" then
            match rest with
            | [] => [c]
            | _ :: _ =>
                let '(name, w) := getShellName rest in
                emit mapping name w ++ expandFrom mapping w rest
            end
          else c :: expandFrom mapping 0 rest
      end
  end.

(** The texts that hold no dollar sign. *)
Definition noDollar (s : string) : bool :=
  forallb (fun c => negb (is_byte c "$")) (list_ascii_of_string s).

(** A name that can stand between braces: not empty, no closing brace. *)
Definition bracedName (name : string) : bool :=
  negb (String.eqb name "")
  && forallb (fun c => negb (is_byte c "}")) (list_ascii_of_string name).

(** A name that can follow a dollar sign directly: letters, digits and
    underscores, the first one not a digit. *)
Definition bareName (name : string) : bool :=
  match list_ascii_of_string name with
  | [] => false
  | c :: r => isAlphaNum c && negb (isShellSpecialVar c) && forallb isAlphaNum r
  end.

(** A text before which a bare name ends. *)
Definition endsName (post : string) : bool :=
  match post with
  | EmptyString => true
  | String c _ => negb (isAlphaNum c)
  end.

(** A byte after which a dollar sign starts no reference: no brace, no
    special variable, no letter, digit or underscore. *)
Definition plain (c : ascii) : bool :=
  negb (is_byte c "{") && negb (isShellSpecialVar c) && negb (isAlphaNum c).

(** The texts expansion leaves alone: every dollar sign is the last byte
    or stands before a [plain] byte. *)
Fixpoint settled (s : list ascii) : bool :=
  match s with
  | [] => true
  | c :: r =>
      if is_byte c "$" then
        match r with
        | [] => true
        | d :: _ => plain d && settled r
        end
      else settled r
  end.

(** [os.Expand(s, mapping)] *)
Definition Expand (s : string) (mapping : string -> string) : string :=
  string_of_list_ascii (expandFrom mapping 0 (list_ascii_of_string s)).

(** The process environment: the variables that are set. *)
Abbreviation Environ := (gmap string string).

(** [os.Getenv]: the value of the variable, empty when it is not set. *)
Definition Getenv (env : Environ) (key : string) : string :=
  default "" (env !! key).

(** [os.ExpandEnv(s)] *)
Definition ExpandEnv (env : Environ) (s : string) : string :=
  Expand s (Getenv env).

(** *** References, as a grammar

    [Scan mapping s out rest]: read from its first byte, the text [s] is a
    sequence of whole items followed by [rest], and [out] is what the items
    stand for.  An item is a byte other than the dollar sign, which stands
    for itself, or a dollar sign together with what it introduces:
    - a name between braces, or a name of letters, digits and underscores
      taken as far as it goes, or a one-byte special name: the item stands
      for the value [mapping] gives for the name;
    - an opening brace with an empty name, or one that is never closed: the
      item ([${}], respectively [${]) stands for nothing;
    - any other byte: the dollar sign stands for itself, and so it does
      when it is the last byte of the text. *)
Inductive Scan (mapping : string -> string) : list ascii -> list ascii -> list ascii -> Prop :=
| Scan_stop s :
    Scan mapping s [] s
| Scan_byte c s out rest :
    is_byte c "$" = false ->
    Scan mapping s out rest ->
    Scan mapping (c :: s) (c :: out) rest
| Scan_last :
    Scan mapping ["$"%char] ["$"%char] []
| Scan_braced name post out rest :
    name <> [] ->
    forallb (fun c => negb (is_byte c "}")) name = true ->
    Scan mapping post out rest ->
    Scan mapping ("$"%char :: "{"%char :: name ++ "}"%char :: post)
      (list_ascii_of_string (mapping (string_of_list_ascii name)) ++ out) rest
| Scan_bare c name post out rest :
    isAlphaNum c = true ->
    isShellSpecialVar c = false ->
    forallb isAlphaNum name = true ->
    match post with [] => true | d :: _ => negb (isAlphaNum d) end = true ->
    Scan mapping post out rest ->
    Scan mapping ("$"%char :: (c :: name) ++ post)
      (list_ascii_of_string (mapping (string_of_list_ascii (c :: name))) ++ out) rest
| Scan_special c post out rest :
    isShellSpecialVar c = true ->
    Scan mapping post out rest ->
    Scan mapping ("$"%char :: c :: post)
      (list_ascii_of_string (mapping (string_of_list_ascii [c])) ++ out) rest
| Scan_empty post out rest :
    Scan mapping post out rest ->
    Scan mapping ("$"%char :: "{"%char :: "}"%char :: post) out rest
| Scan_open text out rest :
    forallb (fun c => negb (is_byte c "}")) text = true ->
    Scan mapping text out rest ->
    Scan mapping ("$"%char :: "{"%char :: text) out rest
| Scan_plain d post out rest :
    plain d = true ->
    Scan mapping (d :: post) out rest ->
    Scan mapping ("$"%char :: d :: post) ("$"%char :: out) rest.

End GoOs.

(* ===================================================================== *)
(** ** [path]: splitting a slash-separated path *)
(* ===================================================================== *)

Module GoPath.

(** Index of the last slash among the bytes of [s] numbered from [i],
    [acc] when there is none. *)
Fixpoint lastSlashFrom (i : Z) (s : list ascii) (acc : Z) : Z :=
  match s with
  | [] => acc
  | c :: r => lastSlashFrom (i + 1) r (if Ascii.eqb c "/" then i else acc)
  end.

(** [strings.LastIndex(path, "/")]: [-1] when [path] has no slash. *)
Definition LastIndexSlash (path : string) : Z :=
  lastSlashFrom 0 (list_ascii_of_string path) (-1).

(** [path.Split]: [path[:i+1], path[i+1:]] for [i] the last slash. *)
Definition Split (path : string) : string * string :=
  let i := LastIndexSlash path in
  let cut := Z.to_nat (i + 1) in
  let bytes := list_ascii_of_string path in
  (string_of_list_ascii (firstn cut bytes), string_of_list_ascii (skipn cut bytes)).

(** [path.Join] on two clean operands, the second one a plain file name:
    the operands separated by one slash.  The program's functions take
    [path.Join] as a parameter; this instance serves the examples. *)
Definition joinClean (dir name : string) : string := dir +:+ "/" +:+ name.

(** The texts that hold no slash. *)
Definition noSlash (s : string) : bool :=
  forallb (fun c => negb (Ascii.eqb c "/")) (list_ascii_of_string s).

End GoPath.

(* ===================================================================== *)
(** ** The program *)
(* ===================================================================== *)

Module Watcher.
Import GoTime GoOs GoPath.

(** *** Configuration, log lines and effects *)

(** The command-line flags of [main.go], with the names of its variables. *)
Record Config : Type := {
  watchedPath : string;
  expandVars : bool;
  copyFiles : bool;
  targetPath : string;
  prometheusUrl : string;
  processDelayTime : Z;
  debugLogs : bool;
}.

(** The defaults declared with the flags. *)
Definition defaultConfig : Config := {|
  watchedPath := "/config";
  expandVars := true;
  copyFiles := true;
  targetPath := "/processed-config";
  prometheusUrl := "http://localhost:9090/-/reload";
  processDelayTime := 5000000000;
  debugLogs := false;
|}.

Inductive Level : Type := Debug | Info | Warn | Error | Fatal.

(** One constructor per log statement of the program. *)
Inductive Msg : Type :=
| MsgBanner
| MsgGithub
| MsgFailedStart
| MsgShutdown
| MsgPosting
| MsgErrPosting
| MsgStatus (code : Z)
| MsgProcessing (srcPath : string)
| MsgErrProcessing (srcPath : string)
| MsgFailedList (srcPath : string)
| MsgErrReading (filePath : string)
| MsgWriting (targetFile : string)
| MsgCreatingWatcher (path : string)
| MsgErrWatcher
| MsgNoLongerExists (path : string)
| MsgFailedWatch (path : string)
| MsgWatcherError
| MsgReceivedEvent (name : string)
| MsgNoModTime (name : string)
| MsgModTime (name : string) (t : Time).

(** What the program does to the outside world, in the order it does it:
    log calls, file-system calls and the reload request.  [WriteFile]
    records whether the write succeeded, [Post] the status code of the
    answer ([None] when the request failed). *)
Inductive Effect : Type :=
| Log (lvl : Level) (m : Msg)
| Stat (path : string)
| ReadDir (path : string)
| ReadFile (path : string)
| WriteFile (path : string) (data : string) (ok : bool)
| Post (url : string) (res : option Z).

(** *** The watched tree as a pass finds it *)

(** The answer of [ioutil.ReadFile]: the bytes, or an error together with
    whatever bytes came back with it (none when the file cannot be opened). *)
Inductive ReadResult : Type :=
| ReadOk (data : string)
| ReadErr (partial : string).

Definition bytesOf (r : ReadResult) : string :=
  match r with ReadOk d => d | ReadErr d => d end.

(** A path of the watched tree: [Missing] when [os.Stat] fails on it, a
    regular file with the answer to reading it, or a directory with its
    entries in the order [ioutil.ReadDir] lists them; [listable] is false
    when [ioutil.ReadDir] fails on the directory. *)
#[local] Unset Elimination Schemes.
Inductive Node : Type :=
| Missing
| File (r : ReadResult)
| Dir (listable : bool) (entries : list (string * Node)).
#[local] Set Elimination Schemes.

(** The files below the target path: contents by path. *)
Abbreviation Files := (gmap string string).

(** *** Sequencing effects over the target files *)

(** A step of the pipeline: it transforms the target files and emits
    effects. *)
Definition Act : Type := Files -> Files * list Effect.

Definition skip : Act := fun fs => (fs, []).

Definition effect (e : Effect) : Act := fun fs => (fs, [e]).

Definition andThen (a b : Act) : Act :=
  fun fs =>
    let '(fs1, t1) := a fs in
    let '(fs2, t2) := b fs1 in
    (fs2, t1 ++ t2).

#[local] Infix ">>" := andThen (at level 61, left associativity).

Section Pipeline.

(** [path.Join], the process environment, and which target paths
    [ioutil.WriteFile] can write during the pass. *)
Variable Join : string -> string -> string.
Variable environ : Environ.
Variable writable : string -> bool.

(** [ioutil.WriteFile(path, data, 0644)]: the file holds [data] afterwards
    when the write succeeds; a write that fails is taken to fail before the
    file is opened and leaves the target files as they were. *)
Definition writeFile (path data : string) : Act :=
  fun fs =>
    if writable path then (<[path := data]> fs, [WriteFile path data true])
    else (fs, [WriteFile path data false]).

(** [processFile(filePath, destFolder)], on a file that reads as [r]. *)
Definition processFile (filePath destFolder : string) (r : ReadResult) : Act :=
  effect (ReadFile filePath) >>
  match r with
  | ReadErr _ => effect (Log Error (MsgErrReading filePath))
  | ReadOk _ => skip
  end >>
  let updatedContent := ExpandEnv environ (bytesOf r) in
  let fileName := snd (Split filePath) in
  let targetFile := Join destFolder fileName in
  effect (Log Debug (MsgWriting targetFile)) >>
  writeFile targetFile updatedContent.

(** [processConfigChanges(srcPath, dstPath)], on the tree [n] found at
    [srcPath].  The recursion is on the tree. *)
Fixpoint processConfigChanges (srcPath dstPath : string) (n : Node) : Act :=
  effect (Log Debug (MsgProcessing srcPath)) >>
  effect (Stat srcPath) >>
  match n with
  | Missing => effect (Log Error (MsgErrProcessing srcPath))
  | Dir listable entries =>
      effect (ReadDir srcPath) >>
      if listable then
        (fix range (files : list (string * Node)) : Act :=
           match files with
           | [] => skip
           | (fileName, child) :: rest =>
               processConfigChanges (Join srcPath fileName) dstPath child >> range rest
           end) entries
      else effect (Log Error (MsgFailedList srcPath))
  | File r => processFile srcPath dstPath r
  end.

(** The loop over the entries of a directory, named. *)
Fixpoint processEntries (srcPath dstPath : string) (files : list (string * Node)) : Act :=
  match files with
  | [] => skip
  | (fileName, child) :: rest =>
      processConfigChanges (Join srcPath fileName) dstPath child
      >> processEntries srcPath dstPath rest
  end.

(** Where [processFile] writes the file it is given (lines 145 and 146). *)
Definition targetFile (destFolder filePath : string) : string :=
  Join destFolder (snd (Split filePath)).

(** The write [processFile] attempts for a file: path, bytes, success. *)
Definition writeOf (dstPath : string) (f : string * ReadResult) : string * string * bool :=
  (targetFile dstPath (fst f), ExpandEnv environ (bytesOf (snd f)),
   writable (targetFile dstPath (fst f))).

(** [processFile] on each file of a list, in order. *)
Fixpoint processFiles (destFolder : string) (l : list (string * ReadResult)) : Act :=
  match l with
  | [] => skip
  | (filePath, r) :: rest => processFile filePath destFolder r >> processFiles destFolder rest
  end.

End Pipeline.

(** *** The regular files of a watched tree *)

Section Tree.

Variable Join : string -> string -> string.

(** The regular files the walk can reach from [srcPath], with their paths
    and what reading them gives, in the order of the listings: the walk
    does not go below a path it cannot stat or a directory it cannot
    list. *)
Fixpoint regularFiles (srcPath : string) (n : Node) : list (string * ReadResult) :=
  match n with
  | Missing => []
  | File r => [(srcPath, r)]
  | Dir listable entries =>
      if listable then
        (fix each (files : list (string * Node)) : list (string * ReadResult) :=
           match files with
           | [] => []
           | (fileName, child) :: rest =>
               regularFiles (Join srcPath fileName) child ++ each rest
           end) entries
      else []
  end.

Fixpoint entryFiles (srcPath : string) (files : list (string * Node))
  : list (string * ReadResult) :=
  match files with
  | [] => []
  | (fileName, child) :: rest =>
      regularFiles (Join srcPath fileName) child ++ entryFiles srcPath rest
  end.

(** The node at a position of the tree: a position is the list of the
    indices to follow in the listings, from the root. *)
Fixpoint nodeAt (pos : list nat) (n : Node) : option Node :=
  match pos with
  | [] => Some n
  | i :: below =>
      match n with
      | Dir true entries =>
          match entries !! i with
          | Some (_, child) => nodeAt below child
          | None => None
          end
      | _ => None
      end
  end.

(** The path the walk builds for a position. *)
Fixpoint pathAt (pos : list nat) (srcPath : string) (n : Node) : string :=
  match pos with
  | [] => srcPath
  | i :: below =>
      match n with
      | Dir true entries =>
          match entries !! i with
          | Some (fileName, child) => pathAt below (Join srcPath fileName) child
          | None => srcPath
          end
      | _ => srcPath
      end
  end.

End Tree.

(** The positions of the regular files the walk can reach, in the order of
    the listings. *)
Fixpoint filePositions (n : Node) : list (list nat) :=
  match n with
  | Missing => []
  | File _ => [[]]
  | Dir listable entries =>
      if listable then
        (fix each (k : nat) (files : list (string * Node)) : list (list nat) :=
           match files with
           | [] => []
           | (_, child) :: rest =>
               (cons k <$> filePositions child) ++ each (S k) rest
           end) 0%nat entries
      else []
  end.

Fixpoint entryPositions (k : nat) (files : list (string * Node)) : list (list nat) :=
  match files with
  | [] => []
  | (_, child) :: rest =>
      (cons k <$> filePositions child) ++ entryPositions (S k) rest
  end.

(** The paths handed to [ioutil.ReadFile], in order. *)
Definition readsOf (t : list Effect) : list string :=
  flat_map (fun e => match e with ReadFile p => [p] | _ => [] end) t.

(** The writes handed to [ioutil.WriteFile], in order: path, bytes, and
    whether the write succeeded. *)
Definition writesOf (t : list Effect) : list (string * string * bool) :=
  flat_map (fun e => match e with WriteFile p d ok => [(p, d, ok)] | _ => [] end) t.

(** The messages logged as errors, in order. *)
Definition errorsOf (t : list Effect) : list Msg :=
  flat_map (fun e => match e with Log Error m => [m] | _ => [] end) t.

(** [notifyPrometheus(url)], given the outcome of [http.Post]. *)
Definition notifyPrometheus (url : string) (res : option Z) : list Effect :=
  [Log Debug MsgPosting; Post url res] ++
  match res with
  | None => [Log Error MsgErrPosting]
  | Some code => [Log Debug (MsgStatus code)]
  end.

(** *** The debounce timer *)

(** [delayTimer]: whether the timer is counting down ([armed]) and whether
    a tick waits in its channel [C] ([tick]; the channel holds one value).
    This is the timer of the Go releases the program was written for: at
    its deadline the runtime puts a tick in the channel without blocking,
    and [Reset] re-arms the timer without draining the channel. *)
Record Timer : Type := { armed : bool; tick : bool }.

(** [time.NewTimer(d)] *)
Definition NewTimer : Timer := {| armed := true; tick := false |}.

(** [delayTimer.Reset(d)] *)
Definition Reset (t : Timer) : Timer := {| armed := true; tick := tick t |}.

(** The deadline passes. *)
Definition expired (t : Timer) : Timer := {| armed := false; tick := true |}.

(** [<-delayTimer.C] *)
Definition drained (t : Timer) : Timer := {| armed := armed t; tick := false |}.

(** *** The coordinator: the variables of [main]'s loop *)

Record Coordinator : Type := {
  lastConfigProcess : Time;
  lastConfigChange : Time;
  delayTimer : Timer;
}.

(** What one pass meets outside the program: the watched tree, which
    target paths can be written, the outcome of the reload request, and
    the reading of [time.Now] when the pass is over. *)
Record PassEnv : Type := {
  source : Node;
  canWrite : string -> bool;
  postResult : option Z;
  wallClock : Z;
  monoClock : Z;
}.

Section Program.

Variable Join : string -> string -> string.
Variable environ : Environ.
Variable cfg : Config.

(** Lines 88 to 90: the pass. *)
Definition runPass (pe : PassEnv) (c : Coordinator) (fs : Files)
  : Coordinator * Files * list Effect :=
  let '(fs1, t1) :=
    processConfigChanges Join environ (canWrite pe)
      (watchedPath cfg) (targetPath cfg) (source pe) fs in
  let t2 := notifyPrometheus (prometheusUrl cfg) (postResult pe) in
  ({| lastConfigProcess := now (wallClock pe) (monoClock pe);
      lastConfigChange := lastConfigChange c;
      delayTimer := delayTimer c |},
   fs1, t1 ++ t2).

(** The body of [case <-delayTimer.C] (lines 85 to 91). *)
Definition timerCase (pe : PassEnv) (c : Coordinator) (fs : Files)
  : Coordinator * Files * list Effect :=
  if Before (lastConfigProcess c) (lastConfigChange c)
  then runPass pe c fs
  else (c, fs, []).

(** [case lastConfigChange = <-fileChangeTime] (lines 80 to 82). *)
Definition changeCase (t : Time) (c : Coordinator) : Coordinator :=
  {| lastConfigProcess := lastConfigProcess c;
     lastConfigChange := t;
     delayTimer := Reset (delayTimer c) |}.

(** *** The listener *)

(** A message of the file watcher as the listener's [select] takes it: an
    error, or an event for [name] together with the answer of [os.Stat] on
    it ([None] for an error, otherwise the wall-clock modification time). *)
Inductive WatcherMsg : Type :=
| WatcherErr
| WatcherEvent (name : string) (mtime : option Z).

(** Where the listener goroutine is: at its [select], or at the send
    [changeTime <- stat.ModTime()] with the value it carries. *)
Inductive Listener : Type :=
| Listening
| Sending (t : Time).

(** One iteration of the loop of [listenForChanges], up to the send. *)
Definition listenCase (m : WatcherMsg) : Listener * list Effect :=
  match m with
  | WatcherErr => (Listening, [Log Error MsgWatcherError])
  | WatcherEvent name None =>
      (Listening,
       [Log Debug (MsgReceivedEvent name); Stat name; Log Error (MsgNoModTime name)])
  | WatcherEvent name (Some w) =>
      (Sending (modTime w),
       [Log Debug (MsgReceivedEvent name); Stat name;
        Log Debug (MsgModTime name (modTime w))])
  end.

(** *** The channel between the two *)

(** A channel of [time.Time]: its capacity and the values it buffers. *)
Record Chan : Type := { cap : nat; buf : list Time }.

(** [make(chan time.Time, n)]; [make(chan time.Time)] is [makeChan 0]. *)
Definition makeChan (n : nat) : Chan := {| cap := n; buf := [] |}.

(** *** The whole program *)

Inductive Status : Type := Running | Exited (code : Z).

(** The coordinator is at its [select], or inside a pass. *)
Inductive Phase : Type := Selecting | InPass.

Record Sys : Type := {
  status : Status;
  coord : Coordinator;
  phase : Phase;
  listener : Listener;
  changeTime : Chan;
  files : Files;
  trace : list Effect;
}.

Inductive AddResult : Type := AddOk | AddNotExist | AddFailed.

(** [startWatchingPath(path)]: the channel it returns, [None] when the
    watcher cannot be created ([log.Fatalf] ends the process). *)
Definition startWatchingPath (path : string) (newWatcherOk : bool) (add : AddResult)
  : option Chan * list Effect :=
  if newWatcherOk then
    (Some (makeChan 0),
     [Log Debug (MsgCreatingWatcher path)] ++
     match add with
     | AddOk => []
     | AddNotExist => [Log Info (MsgNoLongerExists path)]
     | AddFailed => [Log Warn (MsgFailedWatch path)]
     end)
  else (None, [Log Debug (MsgCreatingWatcher path); Log Fatal MsgErrWatcher]).

(** [main] up to its loop (lines 52 to 72): [w0] and [m0] are the reading
    of [time.Now] on line 64, [fs0] the target files at that time. *)
Definition main (w0 m0 : Z) (newWatcherOk : bool) (add : AddResult) (fs0 : Files) : Sys :=
  let c0 := {| lastConfigProcess := zero;
               lastConfigChange := now w0 m0;
               delayTimer := NewTimer |} in
  let '(ch, t) := startWatchingPath (watchedPath cfg) newWatcherOk add in
  match ch with
  | Some fileChangeTime =>
      {| status := Running; coord := c0; phase := Selecting;
         listener := Listening; changeTime := fileChangeTime;
         files := fs0; trace := [Log Info MsgBanner; Log Info MsgGithub] ++ t |}
  | None =>
      {| status := Exited 1; coord := c0; phase := Selecting;
         listener := Listening; changeTime := makeChan 0;
         files := fs0; trace := [Log Info MsgBanner; Log Info MsgGithub] ++ t |}
  end.

(** What can happen next: the listener takes a message of the watcher; its
    send completes into the channel's buffer; the coordinator receives a
    change time (from the buffer, or from the listener waiting at its
    send); the timer's deadline passes; the coordinator takes a signal; it
    takes the timer's tick; the pass it is in comes to its end. *)
Inductive Action : Type :=
| FromWatcher (m : WatcherMsg)
| SendBuffered
| Receive (t : Time)
| Expire
| Signal
| TimerFire
| PassDone (pe : PassEnv).

#[local] Instance Time_eq_dec : EqDecision Time.
Proof. solve_decision. Defined.

Definition setCoord (c : Coordinator) (s : Sys) : Sys :=
  {| status := status s; coord := c; phase := phase s; listener := listener s;
     changeTime := changeTime s; files := files s; trace := trace s |}.

Definition setPhase (p : Phase) (s : Sys) : Sys :=
  {| status := status s; coord := coord s; phase := p; listener := listener s;
     changeTime := changeTime s; files := files s; trace := trace s |}.

Definition setListener (l : Listener) (s : Sys) : Sys :=
  {| status := status s; coord := coord s; phase := phase s; listener := l;
     changeTime := changeTime s; files := files s; trace := trace s |}.

Definition setBuf (b : list Time) (s : Sys) : Sys :=
  {| status := status s; coord := coord s; phase := phase s; listener := listener s;
     changeTime := {| cap := cap (changeTime s); buf := b |};
     files := files s; trace := trace s |}.

Definition setTimer (t : Timer) (s : Sys) : Sys :=
  setCoord {| lastConfigProcess := lastConfigProcess (coord s);
              lastConfigChange := lastConfigChange (coord s);
              delayTimer := t |} s.

Definition logged (t : list Effect) (s : Sys) : Sys :=
  {| status := status s; coord := coord s; phase := phase s; listener := listener s;
     changeTime := changeTime s; files := files s; trace := trace s ++ t |}.

Definition exitWith (code : Z) (s : Sys) : Sys :=
  {| status := Exited code; coord := coord s; phase := phase s; listener := listener s;
     changeTime := changeTime s; files := files s; trace := trace s |}.

(** One step of the program; [None] when the action cannot happen in [s]. *)
Definition step (a : Action) (s : Sys) : option Sys :=
  match status s with
  | Exited _ => None
  | Running =>
      match a with
      | FromWatcher m =>
          match listener s with
          | Listening =>
              let '(l, t) := listenCase m in Some (setListener l (logged t s))
          | Sending _ => None
          end
      | SendBuffered =>
          match listener s with
          | Sending t =>
              if (length (buf (changeTime s)) <? cap (changeTime s))%nat
              then Some (setListener Listening (setBuf (buf (changeTime s) ++ [t]) s))
              else None
          | Listening => None
          end
      | Receive t =>
          match phase s with
          | InPass => None
          | Selecting =>
              match buf (changeTime s) with
              | t' :: rest =>
                  if decide (t = t')
                  then Some (setCoord (changeCase t (coord s)) (setBuf rest s))
                  else None
              | [] =>
                  match listener s with
                  | Sending t' =>
                      if decide (t = t')
                      then Some (setCoord (changeCase t (coord s)) (setListener Listening s))
                      else None
                  | Listening => None
                  end
              end
          end
      | Expire =>
          if armed (delayTimer (coord s))
          then Some (setTimer (expired (delayTimer (coord s))) s)
          else None
      | Signal =>
          match phase s with
          | Selecting => Some (exitWith 0 (logged [Log Info MsgShutdown] s))
          | InPass => None
          end
      | TimerFire =>
          match phase s with
          | Selecting =>
              if tick (delayTimer (coord s)) then
                let s1 := setTimer (drained (delayTimer (coord s))) s in
                if Before (lastConfigProcess (coord s)) (lastConfigChange (coord s))
                then Some (setPhase InPass s1)
                else Some s1
              else None
          | InPass => None
          end
      | PassDone pe =>
          match phase s with
          | InPass =>
              let '(c, fs, t) := runPass pe (coord s) (files s) in
              Some {| status := status s; coord := c; phase := Selecting;
                      listener := listener s; changeTime := changeTime s;
                      files := fs; trace := trace s ++ t |}
          | Selecting => None
          end
      end
  end.

(** A run: the actions in order, [None] as soon as one cannot happen. *)
Fixpoint exec (acts : list Action) (s : Sys) : option Sys :=
  match acts with
  | [] => Some s
  | a :: rest =>
      match step a s with
      | Some s' => exec rest s'
      | None => None
      end
  end.

End Program.

(** The change times the listener obtained during a run, those the
    coordinator received, and those on their way in a state. *)
Definition statted (a : Action) : list Time :=
  match a with
  | FromWatcher (WatcherEvent _ (Some w)) => [modTime w]
  | _ => []
  end.

Definition received (a : Action) : list Time :=
  match a with Receive t => [t] | _ => [] end.

Definition pending (s : Sys) : list Time :=
  buf (changeTime s) ++
  match listener s with Sending t => [t] | Listening => [] end.

Definition isPassDone (a : Action) : bool :=
  match a with PassDone _ => true | _ => false end.

Definition isTimerFire (a : Action) : bool :=
  match a with TimerFire => true | _ => false end.

Definition isFromWatcher (a : Action) : bool :=
  match a with FromWatcher _ => true | _ => false end.

(** How often the coordinator took the timer's tick during a run, and how
    many passes came to their end. *)
Definition fires (acts : list Action) : nat :=
  length (List.filter isTimerFire acts).

Definition passes (acts : list Action) : nat :=
  length (List.filter isPassDone acts).

(** Where the program can be after [f] ticks taken and [d] passes done
    when the watcher stays silent since the start at [now w0 m0]: before
    the first tick, in the pass the first tick started, or after it. *)
Definition silentSince (w0 m0 : Z) (f d : nat) (s : Sys) : Prop :=
  listener s = Listening /\ buf (changeTime s) = []
  /\ lastConfigChange (coord s) = now w0 m0
  /\ ((f = 0%nat /\ d = 0%nat /\ phase s = Selecting
       /\ lastConfigProcess (coord s) = zero
       /\ (delayTimer (coord s) = {| armed := true; tick := false |}
           \/ delayTimer (coord s) = {| armed := false; tick := true |}))
      \/ (f = 1%nat /\ d = 0%nat /\ phase s = InPass
          /\ delayTimer (coord s) = {| armed := false; tick := false |})
      \/ (f = 1%nat /\ d = 1%nat /\ phase s = Selecting
          /\ delayTimer (coord s) = {| armed := false; tick := false |})).

(** *** Further notions used by the properties of the walk *)

Section Outcome.

Variable Join : string -> string -> string.
Variable environ : Environ.
Variable writable : string -> bool.

(** What the last successful write to the target path [T] put there, when
    [processFile] is run on the files of [l] in order; [None] when none of
    them is written to [T]. *)
Fixpoint lastWrite (dstPath T : string) (l : list (string * ReadResult)) : option string :=
  match l with
  | [] => None
  | f :: rest =>
      match lastWrite dstPath T rest with
      | Some d => Some d
      | None =>
          if writable (targetFile Join dstPath (fst f))
             && bool_decide (targetFile Join dstPath (fst f) = T)
          then Some (ExpandEnv environ (bytesOf (snd f)))
          else None
      end
  end.

End Outcome.

(** A tree on which the walk meets no failure: every path can be stat-ed,
    every directory listed and every file read. *)
Fixpoint healthy (n : Node) : bool :=
  match n with
  | Missing => false
  | File (ReadOk _) => true
  | File (ReadErr _) => false
  | Dir listable entries =>
      listable &&
      (fix all (files : list (string * Node)) : bool :=
         match files with
         | [] => true
         | (_, child) :: rest => healthy child && all rest
         end) entries
  end.

Fixpoint healthyEntries (files : list (string * Node)) : bool :=
  match files with
  | [] => true
  | (_, child) :: rest => healthy child && healthyEntries rest
  end.

(** The effects that are no reload request. *)
Definition notPost (e : Effect) : Prop :=
  match e with Post _ _ => False | _ => True end.

(** The flags [main.go] declares and never reads, set to other values. *)
Definition withFlags (expand copy debug : bool) (cfg : Config) : Config :=
  {| watchedPath := watchedPath cfg;
     expandVars := expand;
     copyFiles := copy;
     targetPath := targetPath cfg;
     prometheusUrl := prometheusUrl cfg;
     processDelayTime := processDelayTime cfg;
     debugLogs := debug |}.

Definition isExpire (a : Action) : bool :=
  match a with Expire => true | _ => false end.

(** How many change times the coordinator received during a run. *)
Definition receipts (acts : list Action) : nat :=
  length (flat_map received acts).

(** The passes a state still owes: one when a pass is in progress, one
    for a tick waiting in the timer's channel, one for an armed timer. *)
Definition owed (s : Sys) : nat :=
  (match phase s with InPass => 1 | Selecting => 0 end
   + (if tick (delayTimer (coord s)) then 1 else 0)
   + (if armed (delayTimer (coord s)) then 1 else 0))%nat.

(** The coordinator after it received the change times of [ts] in order. *)
Definition afterChanges (ts : list Time) (c : Coordinator) : Coordinator :=
  fold_left (fun c t => changeCase t c) ts c.

End Watcher.

Import GoTime GoOs GoPath Watcher.

(* ===================================================================== *)
(** ** Concrete inputs of the examples *)
(* ===================================================================== *)

(** An environment that sets [PORT]. *)
Definition envPort : Environ := <["PORT" := "9090"]> ∅.

(** An environment in which the value of [X] is itself a reference. *)
Definition envChain : Environ := <["X" := "$Y"]> ∅.

(** A watched directory with a single readable file. *)
Definition oneFile : Node := Dir true [("a.yml", File (ReadOk "job: ${PORT}"))].

(** A watched directory with a file that cannot be read, before one that
    can. *)
Definition unreadableFirst : Node :=
  Dir true [("a.yml", File (ReadErr "")); ("b.yml", File (ReadOk "job: ${PORT}"))].

(** What a pass meets: the tree [source], every target path writable, the
    reload request answered with [200], the clock at [w] and [m]. *)
Definition passEnv (source : Node) (w m : Z) : PassEnv :=
  {| source := source; canWrite := fun _ => true; postResult := Some 200%Z;
     wallClock := w; monoClock := m |}.

(** The same with a reload request that fails and no writable target. *)
Definition failingEnv (source : Node) (w m : Z) : PassEnv :=
  {| source := source; canWrite := fun _ => false; postResult := None;
     wallClock := w; monoClock := m |}.

(** The program once started, with the default flags. *)
Definition started : Sys :=
  main defaultConfig 1000 10 true AddOk ∅.

(** The program after its first pass, over [oneFile]. *)
Definition afterFirstPass : Sys := Eval vm_compute in
    match exec joinClean envPort defaultConfig
            [Expire; TimerFire; PassDone (passEnv oneFile 2000 20)] started with
    | Some s => s
    | None => started
    end.

(** The program in its first pass, the listener at its send. *)
Definition duringFirstPass : Sys := Eval vm_compute in
    match exec joinClean envPort defaultConfig
            [Expire; TimerFire; FromWatcher (WatcherEvent "/config/a.yml" (Some 500%Z))]
            started with
    | Some s => s
    | None => started
    end.

(** The program after its first pass, the listener at its send with the
    change time of a file written while the pass was running. *)
Definition afterLateChange : Sys := Eval vm_compute in
    match exec joinClean envPort defaultConfig
            [FromWatcher (WatcherEvent "/config/a.yml" (Some 1500%Z))]
            afterFirstPass with
    | Some s => s
    | None => started
    end.

(** The same once the change time is received and a failed stat logged. *)
Definition afterBurst : Sys := Eval vm_compute in
    match exec joinClean envPort defaultConfig
            [Receive (modTime 1500); FromWatcher (WatcherEvent "/config/b.yml" None)]
            afterLateChange with
    | Some s => s
    | None => started
    end.

(** Two files of the same name in two subdirectories. *)
Definition sameName : Node :=
  Dir true [("a", Dir true [("x.yml", File (ReadOk "from a"))]);
            ("b", Dir true [("x.yml", File (ReadOk "from b"))])].

(* ===================================================================== *)
(** ** Facts about the library functions *)
(* ===================================================================== *)

Lemma Before_irrefl t : Before t t = false.
Proof. unfold Before. destruct (mono t); apply Z.ltb_irrefl. Qed.

Lemma Before_zero_now w m : (0 < w)%Z -> Before zero (now w m) = true.
Proof. intros H. unfold Before; simpl. now apply Z.ltb_lt. Qed.

Lemma bytes_app (a b : string) :
  list_ascii_of_string (a +:+ b) = list_ascii_of_string a ++ list_ascii_of_string b.
Proof. induction a as [|c a IH]; simpl; [reflexivity | now rewrite IH]. Qed.

Lemma string_of_bytes_app (a b : list ascii) :
  string_of_list_ascii (a ++ b) = string_of_list_ascii a +:+ string_of_list_ascii b.
Proof. induction a as [|c a IH]; simpl; [reflexivity | now rewrite IH]. Qed.

Section ExpandFacts.

Variable mapping : string -> string.

(** Skipping [w] bytes is expanding what is left after them. *)
Lemma expandFrom_skip w s :
  expandFrom mapping w s = expandFrom mapping 0 (skipn w s).
Proof.
  revert w; induction s as [|c s IH]; intros [|w]; try reflexivity.
  simpl. apply IH.
Qed.

(** One turn of the loop at a dollar sign that is not the last byte. *)
Lemma expandFrom_dollar d r :
  expandFrom mapping 0 ("$"%char :: d :: r)
  = emit mapping (fst (getShellName (d :: r))) (snd (getShellName (d :: r)))
    ++ expandFrom mapping 0 (skipn (snd (getShellName (d :: r))) (d :: r)).
Proof.
  rewrite <- expandFrom_skip. cbn [expandFrom]. change (is_byte "$" "$") with true.
  cbv iota. now destruct (getShellName (d :: r)).
Qed.

(** Bytes before the first dollar sign are copied. *)
Lemma expandFrom_plain_prefix pre s :
  forallb (fun c => negb (is_byte c "$")) pre = true ->
  expandFrom mapping 0 (pre ++ s) = pre ++ expandFrom mapping 0 s.
Proof.
  induction pre as [|c pre IH]; simpl; [reflexivity|].
  intros [Hc Hpre]%andb_prop.
  destruct (is_byte c "$"); [discriminate|]. now rewrite IH.
Qed.

Lemma indexBrace_app name post :
  forallb (fun c => negb (is_byte c "}")) name = true ->
  indexBrace (name ++ "}"%char :: post) = Some (length name).
Proof.
  induction name as [|c name IH]; simpl; [reflexivity|].
  intros [Hc Hn]%andb_prop. destruct (is_byte c "}"); [discriminate|].
  now rewrite IH.
Qed.

(** The name between braces. *)
Lemma getShellName_braced name post :
  name <> [] ->
  forallb (fun c => negb (is_byte c "}")) name = true ->
  getShellName ("{"%char :: name ++ "}"%char :: post) = (name, (length name + 2)%nat).
Proof.
  intros Hne Hnb.
  assert (Hscan : match indexBrace (name ++ "}"%char :: post) with
                  | Some 0%nat => ([], 2%nat)
                  | Some k => (firstn k (name ++ "}"%char :: post), (k + 2)%nat)
                  | None => ([], 1%nat)
                  end = (name, (length name + 2)%nat)).
  { rewrite indexBrace_app by assumption.
    rewrite (take_app_length name).
    destruct name as [|c name]; [congruence | reflexivity]. }
  unfold getShellName. change (is_byte "{" "{") with true. cbv iota.
  destruct name as [|c1 name]; [congruence|].
  destruct name as [|c2 name].
  - cbn [app]. destruct (isShellSpecialVar c1 && is_byte "}" "}"); [reflexivity|].
    apply Hscan.
  - cbn [app]. simpl in Hnb.
    destruct (is_byte c1 "}") eqn:E1; [discriminate|].
    destruct (is_byte c2 "}") eqn:E2; [discriminate|].
    rewrite andb_false_r. apply Hscan.
Qed.

Lemma scanAlphaNum_app name post :
  forallb isAlphaNum name = true ->
  match post with [] => true | c :: _ => negb (isAlphaNum c) end = true ->
  scanAlphaNum (name ++ post) = length name.
Proof.
  intros Hn Hp. induction name as [|c name IH]; simpl.
  - destruct post as [|d post]; [reflexivity|]. simpl.
    now destruct (isAlphaNum d).
  - simpl in Hn. apply andb_prop in Hn as [Hc Hn]. rewrite Hc. now rewrite IH.
Qed.

Lemma special_not_brace c : isShellSpecialVar c = false \/ is_byte c "{" = false.
Proof.
  destruct (is_byte c "{") eqn:E; [|now right]. left.
  apply Ascii.eqb_eq in E. now subst.
Qed.

Lemma alnum_not_brace c : isAlphaNum c = true -> is_byte c "{" = false.
Proof.
  intros H. destruct (is_byte c "{") eqn:E; [|reflexivity].
  apply Ascii.eqb_eq in E. subst. discriminate.
Qed.

(** The name right after the dollar sign. *)
Lemma getShellName_bare c name post :
  isAlphaNum c = true -> isShellSpecialVar c = false ->
  forallb isAlphaNum name = true ->
  match post with [] => true | d :: _ => negb (isAlphaNum d) end = true ->
  getShellName ((c :: name) ++ post) = (c :: name, S (length name)).
Proof.
  intros Hc Hs Hn Hp. unfold getShellName. cbn [app].
  rewrite (alnum_not_brace c Hc), Hs.
  change (c :: name ++ post) with ((c :: name) ++ post).
  rewrite scanAlphaNum_app; [| simpl; now rewrite Hc | assumption].
  now rewrite (take_app_length (c :: name)).
Qed.

End ExpandFacts.

Section SettledFacts.

Variable mapping : string -> string.

Lemma getShellName_plain d r : plain d = true -> getShellName (d :: r) = ([], 0%nat).
Proof.
  unfold plain. intros [[Hb Hs]%andb_prop Ha]%andb_prop.
  apply negb_true_iff in Hb, Hs, Ha.
  unfold getShellName. rewrite Hb, Hs. simpl. now rewrite Ha.
Qed.

Lemma getShellName_nothing d r : getShellName (d :: r) = ([], 0%nat) -> plain d = true.
Proof.
  unfold getShellName, plain.
  destruct (is_byte d "{") eqn:Hb.
  - intros H. exfalso.
    destruct r as [|c1 [|c2 r]];
      repeat match type of H with
             | context [if ?b then _ else _] => destruct b
             | context [match ?o with Some _ => _ | None => _ end] => destruct o as [[|?]|]
             end; inversion H; lia.
  - destruct (isShellSpecialVar d) eqn:Hs; [discriminate|].
    simpl. destruct (isAlphaNum d) eqn:Ha; [discriminate|]. reflexivity.
Qed.

(** A settled text is a fixed point of the scanning loop. *)
Lemma expandFrom_settled s : settled s = true -> expandFrom mapping 0 s = s.
Proof.
  induction s as [|c s IH]; [reflexivity|].
  cbn [settled expandFrom]. destruct (is_byte c "$") eqn:Hc.
  - destruct s as [|d s]; [reflexivity|].
    intros [Hd Hs]%andb_prop.
    rewrite (getShellName_plain d s Hd). cbn [emit app].
    apply Ascii.eqb_eq in Hc. subst c. now rewrite (IH Hs).
  - intros Hs. now rewrite (IH Hs).
Qed.

Lemma settled_app_plain v s :
  forallb (fun c => negb (is_byte c "$")) v = true ->
  settled s = true -> settled (v ++ s) = true.
Proof.
  induction v as [|c v IH]; [trivial|].
  cbn [forallb app settled]. intros [Hc Hv]%andb_prop Hs.
  apply negb_true_iff in Hc. rewrite Hc. now apply IH.
Qed.

Hypothesis values_plain : forall name, noDollar (mapping name) = true.

(** What the scanning loop returns is settled when no value holds a dollar
    sign. *)
Lemma settled_expandFrom s : forall w, settled (expandFrom mapping w s) = true.
Proof.
  induction s as [|c s IH]; intros w; [now destruct w|].
  destruct w as [|w]; cbn [expandFrom]; [|apply IH].
  destruct (is_byte c "$") eqn:Hc; [|cbn [settled]; rewrite Hc; apply IH].
  destruct s as [|d s]; [cbn [settled]; now rewrite Hc|].
  destruct (getShellName (d :: s)) as [name w] eqn:Hn.
  destruct name as [|n0 name]; [destruct w as [|w]|]; cbn [emit].
  - pose proof (getShellName_nothing d s Hn) as Hd.
    cbn [app]. pose proof (IH 0%nat) as Hs. cbn [expandFrom] in Hs |- *.
    assert (Hnd : is_byte d "$" = false).
    { unfold plain, isShellSpecialVar in Hd.
      destruct (is_byte d "$"); [|reflexivity].
      rewrite !orb_true_r in Hd; cbn in Hd.
      now rewrite andb_false_r in Hd. }
    rewrite Hnd in Hs |- *. cbn [settled]. change (is_byte "$" "$") with true.
    cbv iota. rewrite Hd. apply Hs.
  - apply IH.
  - apply settled_app_plain; [apply values_plain | apply IH].
Qed.

End SettledFacts.

Lemma bareName_bracedName name : bareName name = true -> bracedName name = true.
Proof.
  unfold bareName, bracedName. destruct name as [|c name]; [discriminate|].
  cbn [list_ascii_of_string]. intros [[Hc _]%andb_prop Hr]%andb_prop.
  cbn [String.eqb negb andb forallb].
  assert (Hall : forall d, isAlphaNum d = true -> negb (is_byte d "}") = true).
  { intros d Hd. destruct (is_byte d "}") eqn:E; [|reflexivity].
    apply Ascii.eqb_eq in E. subst. discriminate. }
  rewrite (Hall c Hc). cbn [andb].
  rewrite forallb_forall in Hr |- *. intros d Hd. apply Hall, Hr, Hd.
Qed.

(* ===================================================================== *)
(** ** Substitution *)
(* ===================================================================== *)

Lemma expand_reference_bytes (mapping : string -> string) (pre name post : list ascii) w :
  forallb (fun c => negb (is_byte c "$")) pre = true ->
  name <> [] ->
  getShellName (name ++ post) = (name, w) ->
  w = length name ->
  expandFrom mapping 0 (pre ++ "$"%char :: name ++ post)
  = pre ++ list_ascii_of_string (mapping (string_of_list_ascii name))
        ++ expandFrom mapping 0 post.
Proof.
  intros Hpre Hne Hname ->. rewrite expandFrom_plain_prefix by assumption. f_equal.
  destruct (name ++ post) as [|c r] eqn:E.
  { destruct name; [congruence | discriminate]. }
  rewrite expandFrom_dollar, Hname. cbn [fst snd]. rewrite <- E, drop_app_length.
  destruct name; [congruence | reflexivity].
Qed.

Lemma expand_braced_bytes (mapping : string -> string) (pre name post : list ascii) :
  forallb (fun c => negb (is_byte c "$")) pre = true ->
  name <> [] ->
  forallb (fun c => negb (is_byte c "}")) name = true ->
  expandFrom mapping 0 (pre ++ "$"%char :: "{"%char :: name ++ "}"%char :: post)
  = pre ++ list_ascii_of_string (mapping (string_of_list_ascii name))
        ++ expandFrom mapping 0 post.
Proof.
  intros Hpre Hne Hnb. rewrite expandFrom_plain_prefix by assumption. f_equal.
  rewrite expandFrom_dollar, getShellName_braced by assumption. cbn [fst snd].
  assert (Hdrop : skipn (length name + 2) ("{"%char :: name ++ "}"%char :: post) = post).
  { replace (length name + 2)%nat with (length (("{"%char :: name) ++ ["}"%char]))
      by (rewrite length_app; cbn [length]; lia).
    replace ("{"%char :: name ++ "}"%char :: post)
      with ((("{"%char :: name) ++ ["}"%char]) ++ post)
      by (now rewrite <- app_assoc).
    apply drop_app_length. }
  rewrite Hdrop. destruct name; [congruence | reflexivity].
Qed.

(** *** The scanning loop and the grammar of references *)

Lemma special_is_not_brace c : isShellSpecialVar c = true -> is_byte c "{" = false.
Proof. intros H. destruct (special_not_brace c) as [E|E]; congruence. Qed.

Section ScanFacts.

Variable mapping : string -> string.

Lemma getShellName_special c post :
  isShellSpecialVar c = true -> getShellName (c :: post) = ([c], 1%nat).
Proof.
  intros Hc. unfold getShellName. now rewrite (special_is_not_brace c Hc), Hc.
Qed.

Lemma getShellName_empty post :
  getShellName ("{"%char :: "}"%char :: post) = ([], 2%nat).
Proof.
  unfold getShellName. change (is_byte "{" "{") with true. cbv iota.
  destruct post as [|d l]; reflexivity.
Qed.

Lemma indexBrace_None text :
  forallb (fun c => negb (is_byte c "}")) text = true -> indexBrace text = None.
Proof.
  induction text as [|c text IH]; [reflexivity|]. cbn [forallb indexBrace].
  intros [Hc Ht]%andb_prop. apply negb_true_iff in Hc. rewrite Hc.
  now rewrite (IH Ht).
Qed.

Lemma getShellName_open text :
  forallb (fun c => negb (is_byte c "}")) text = true ->
  getShellName ("{"%char :: text) = ([], 1%nat).
Proof.
  intros Ht. unfold getShellName. change (is_byte "{" "{") with true. cbv iota.
  rewrite (indexBrace_None text Ht).
  destruct text as [|c1 [|c2 text]]; try reflexivity.
  cbn [forallb] in Ht. apply andb_prop in Ht as [_ [H2 _]%andb_prop].
  apply negb_true_iff in H2. rewrite H2. now rewrite andb_false_r.
Qed.

(** A text holds no closing brace, or has a first one. *)
Lemma brace_split text :
  forallb (fun c => negb (is_byte c "}")) text = true
  \/ exists name post,
      text = name ++ "}"%char :: post
      /\ forallb (fun c => negb (is_byte c "}")) name = true.
Proof.
  induction text as [|c text IH]; [now left|].
  destruct (is_byte c "}") eqn:Hc.
  - right. exists [], text. apply Ascii.eqb_eq in Hc. now subst.
  - destruct IH as [Hno | (name & post & -> & Hname)].
    + left. cbn [forallb]. now rewrite Hc.
    + right. exists (c :: name), post. split; [reflexivity|].
      cbn [forallb]. now rewrite Hc.
Qed.

(** A text is a run of letters, digits and underscores followed by a text
    that starts with none. *)
Lemma alnum_split text :
  exists name post,
    text = name ++ post
    /\ forallb isAlphaNum name = true
    /\ match post with [] => true | d :: _ => negb (isAlphaNum d) end = true.
Proof.
  induction text as [|c text (name & post & -> & Hname & Hpost)].
  - now exists [], [].
  - destruct (isAlphaNum c) eqn:Hc.
    + exists (c :: name), post. repeat split; [|exact Hpost].
      cbn [forallb]. now rewrite Hc.
    + exists [], (c :: name ++ post). repeat split. cbn. now rewrite Hc.
Qed.

(** The loop returns what the items stand for, followed by what it
    returns on the rest. *)
Lemma Scan_sound s out rest :
  Scan mapping s out rest ->
  expandFrom mapping 0 s = out ++ expandFrom mapping 0 rest.
Proof.
  induction 1 as [s | c s out rest Hc _ IH | | name post out rest Hne Hnb _ IH
                 | c name post out rest Hc Hs Hn Hp _ IH
                 | c post out rest Hc _ IH | post out rest _ IH
                 | text out rest Ht _ IH | d post out rest Hd _ IH].
  - reflexivity.
  - cbn [expandFrom]. rewrite Hc, IH. reflexivity.
  - reflexivity.
  - pose proof (expand_braced_bytes mapping [] name post eq_refl Hne Hnb) as Hhead.
    cbn [app] in Hhead. now rewrite Hhead, IH, app_assoc.
  - assert (Hhead : expandFrom mapping 0 ([] ++ "$"%char :: (c :: name) ++ post)
                    = [] ++ list_ascii_of_string (mapping (string_of_list_ascii (c :: name)))
                         ++ expandFrom mapping 0 post).
    { apply (expand_reference_bytes mapping [] (c :: name) post (S (length name)));
        [reflexivity | discriminate | now apply getShellName_bare | reflexivity]. }
    cbn [app] in Hhead |- *. now rewrite Hhead, IH, app_assoc.
  - rewrite expandFrom_dollar, (getShellName_special c post Hc).
    cbn [fst snd emit skipn drop]. rewrite drop_0. now rewrite IH, app_assoc.
  - rewrite expandFrom_dollar, getShellName_empty. cbn [fst snd emit skipn drop app].
    rewrite drop_0. exact IH.
  - rewrite expandFrom_dollar, (getShellName_open text Ht).
    cbn [fst snd emit skipn drop app]. rewrite drop_0. exact IH.
  - rewrite expandFrom_dollar, (getShellName_plain d post Hd).
    cbn [fst snd emit skipn drop app]. now rewrite IH.
Qed.

(** Every text is a sequence of whole items, and the loop returns what
    they stand for. *)
Lemma Scan_complete_upto n : forall s,
  (length s <= n)%nat -> Scan mapping s (expandFrom mapping 0 s) [].
Proof.
  induction n as [|n IH]; intros s Hlen.
  - destruct s; [apply Scan_stop | cbn in Hlen; lia].
  - destruct s as [|c s]; [apply Scan_stop|]. cbn [length] in Hlen.
    destruct (is_byte c "$") eqn:Hc.
    2:{ cbn [expandFrom]. rewrite Hc. apply Scan_byte; [exact Hc | apply IH; lia]. }
    apply Ascii.eqb_eq in Hc. subst c.
    destruct s as [|d r]; [apply Scan_last|]. cbn [length] in Hlen.
    destruct (is_byte d "{") eqn:Hb.
    { apply Ascii.eqb_eq in Hb. subst d.
      destruct (brace_split r) as [Hno | (name & post & -> & Hname)].
      - rewrite (Scan_sound _ _ _ (Scan_open mapping r [] r Hno (Scan_stop mapping r))).
        apply Scan_open; [exact Hno | apply IH; lia].
      - assert (Hpost : (length post <= n)%nat).
        { rewrite length_app in Hlen. cbn [length] in Hlen. lia. }
        destruct name as [|n0 name].
        + cbn [app].
          rewrite (Scan_sound _ _ _ (Scan_empty mapping post [] post (Scan_stop mapping post))).
          apply Scan_empty, IH, Hpost.
        + rewrite (Scan_sound _ _ _
                     (Scan_braced mapping (n0 :: name) post [] post
                        ltac:(discriminate) Hname (Scan_stop mapping post))).
          rewrite app_nil_r.
          apply Scan_braced; [discriminate | exact Hname | apply IH, Hpost]. }
    destruct (isShellSpecialVar d) eqn:Hs.
    { rewrite (Scan_sound _ _ _ (Scan_special mapping d r [] r Hs (Scan_stop mapping r))).
      rewrite app_nil_r. apply Scan_special; [exact Hs | apply IH; lia]. }
    destruct (isAlphaNum d) eqn:Ha.
    + destruct (alnum_split r) as (name & post & -> & Hname & Hpost).
      assert (Hlp : (length post <= n)%nat).
      { rewrite length_app in Hlen. lia. }
      change ("$"%char :: d :: name ++ post) with ("$"%char :: (d :: name) ++ post).
      rewrite (Scan_sound _ _ _
                 (Scan_bare mapping d name post [] post Ha Hs Hname Hpost
                    (Scan_stop mapping post))).
      rewrite app_nil_r. apply Scan_bare; try assumption. apply IH, Hlp.
    + assert (Hd : plain d = true).
      { unfold plain. now rewrite Hb, Hs, Ha. }
      rewrite (Scan_sound _ _ _
                 (Scan_plain mapping d r [] (d :: r) Hd (Scan_stop mapping (d :: r)))).
      cbn [app]. apply Scan_plain; [exact Hd | apply IH; cbn [length]; lia].
Qed.

Lemma Scan_complete s : Scan mapping s (expandFrom mapping 0 s) [].
Proof. apply (Scan_complete_upto (length s)). lia. Qed.

End ScanFacts.

Lemma Expand_at_scan env content out rest :
  Scan (Getenv env) (list_ascii_of_string content) out rest ->
  ExpandEnv env content
  = string_of_list_ascii out +:+ ExpandEnv env (string_of_list_ascii rest).
Proof.
  intros H. unfold ExpandEnv, Expand.
  rewrite (Scan_sound _ _ _ _ H), string_of_bytes_app.
  now rewrite list_ascii_of_string_of_list_ascii.
Qed.

(** C3, amended: for every content, the substitution replaces every
    reference [${NAME}] or [$NAME] it comes to, reading from the first
    byte, by the value [os.Getenv] gives for [NAME], which is the empty
    text when the environment does not define [NAME]; no error arises.
    In full: every content is a sequence of whole items in the sense of
    [Scan], and what [os.ExpandEnv] returns is what they stand for. *)
Theorem expand_resolves_references
    (env : Environ) (content name post : string) (out : list ascii) :
  bareName name = true ->
  (Scan (Getenv env) (list_ascii_of_string content) out
     (list_ascii_of_string ("${" +:+ name +:+ "}" +:+ post)) ->
   ExpandEnv env content
   = string_of_list_ascii out +:+ Getenv env name +:+ ExpandEnv env post)
  /\ (endsName post = true ->
      Scan (Getenv env) (list_ascii_of_string content) out
        (list_ascii_of_string ("$" +:+ name +:+ post)) ->
      ExpandEnv env content
      = string_of_list_ascii out +:+ Getenv env name +:+ ExpandEnv env post)
  /\ Scan (Getenv env) (list_ascii_of_string content)
       (list_ascii_of_string (ExpandEnv env content)) []
  /\ (forall out' rest,
        Scan (Getenv env) (list_ascii_of_string content) out' rest ->
        ExpandEnv env content
        = string_of_list_ascii out' +:+ ExpandEnv env (string_of_list_ascii rest))
  /\ Getenv env name = match env !! name with Some v => v | None => "" end.
Proof.
  intros Hbare.
  assert (Hne : list_ascii_of_string name <> []).
  { unfold bareName in Hbare. now destruct (list_ascii_of_string name). }
  split; [|split; [|split; [|split]]].
  - intros Hscan. rewrite (Expand_at_scan _ _ _ _ Hscan). f_equal.
    rewrite string_of_list_ascii_of_string.
    pose proof (bareName_bracedName name Hbare) as [_ Hnb]%andb_prop.
    unfold ExpandEnv, Expand. rewrite !bytes_app. cbn [list_ascii_of_string app].
    pose proof (expand_braced_bytes (Getenv env) [] _ (list_ascii_of_string post)
                  eq_refl Hne Hnb) as Hhead.
    cbn [app] in Hhead. rewrite Hhead.
    now rewrite string_of_bytes_app, !string_of_list_ascii_of_string.
  - intros Hpost Hscan. rewrite (Expand_at_scan _ _ _ _ Hscan). f_equal.
    rewrite string_of_list_ascii_of_string.
    unfold ExpandEnv, Expand. rewrite !bytes_app. cbn [list_ascii_of_string app].
    unfold bareName in Hbare.
    destruct (list_ascii_of_string name) as [|c r] eqn:E; [discriminate|].
    apply andb_prop in Hbare as [[Hc Hs]%andb_prop Hr].
    apply negb_true_iff in Hs.
    assert (Hhead : expandFrom (Getenv env) 0
                      ([] ++ "$"%char :: (c :: r) ++ list_ascii_of_string post)
                    = [] ++ list_ascii_of_string
                              (Getenv env (string_of_list_ascii (c :: r)))
                         ++ expandFrom (Getenv env) 0 (list_ascii_of_string post)).
    { apply (expand_reference_bytes _ [] (c :: r) _ (S (length r)));
        [reflexivity | discriminate | | reflexivity].
      apply getShellName_bare; try assumption.
      unfold endsName in Hpost. now destruct post. }
    cbn [app] in Hhead |- *. rewrite Hhead, <- E, string_of_list_ascii_of_string.
    now rewrite string_of_bytes_app, !string_of_list_ascii_of_string.
  - unfold ExpandEnv, Expand. rewrite list_ascii_of_string_of_list_ascii.
    apply Scan_complete.
  - intros out' rest. apply Expand_at_scan.
  - unfold Getenv. now destruct (env !! name).
Qed.

(** Builds the derivation that a concrete text is a sequence of items. *)
Ltac scan_items :=
  cbn [list_ascii_of_string String.append];
  repeat first
    [ apply Scan_stop
    | apply Scan_last
    | apply Scan_byte; [reflexivity|]
    | apply Scan_plain; [reflexivity|] ].

Lemma expand_resolves_references_witness :
  Scan (Getenv envPort) (list_ascii_of_string "cost: $ 5, listen: ${PORT}")
    (list_ascii_of_string "cost: $ 5, listen: ") (list_ascii_of_string "${PORT}")
  /\ ExpandEnv envPort "cost: $ 5, listen: ${PORT}"
     = string_of_list_ascii (list_ascii_of_string "cost: $ 5, listen: ")
       +:+ Getenv envPort "PORT" +:+ ExpandEnv envPort ""
  /\ ExpandEnv envPort "cost: $ 5, listen: ${PORT}" = "cost: $ 5, listen: 9090".
Proof.
  assert (Hscan : Scan (Getenv envPort) (list_ascii_of_string "cost: $ 5, listen: ${PORT}")
                    (list_ascii_of_string "cost: $ 5, listen: ")
                    (list_ascii_of_string ("${" +:+ "PORT" +:+ "}" +:+ ""))).
  { scan_items. }
  split; [exact Hscan|]. split; [|reflexivity].
  exact (proj1 (expand_resolves_references envPort "cost: $ 5, listen: ${PORT}"
                  "PORT" "" (list_ascii_of_string "cost: $ 5, listen: ") eq_refl) Hscan).
Defined.

(** C3, as stated, fails: a reference to a variable the environment does
    not define is not kept as text, it is replaced by the empty text. *)
Lemma undefined_reference_not_kept :
  (∅ : Environ) !! "HOST" = None
  /\ ExpandEnv ∅ "host: ${HOST}" = "host: "
  /\ ExpandEnv ∅ "host: $HOST" = "host: "
  /\ ExpandEnv ∅ "host: ${HOST}" <> "host: ${HOST}".
Proof. repeat split; try reflexivity. vm_compute. discriminate. Qed.

(** C4, amended: when no value of the environment holds a dollar sign,
    substituting twice gives the same bytes as substituting once. *)
Theorem expand_idempotent_plain_values (env : Environ) (content : string) :
  (forall name value, env !! name = Some value -> noDollar value = true) ->
  ExpandEnv env (ExpandEnv env content) = ExpandEnv env content.
Proof.
  intros Hvalues. unfold ExpandEnv, Expand.
  rewrite list_ascii_of_string_of_list_ascii. f_equal.
  apply expandFrom_settled, settled_expandFrom.
  intros name. unfold Getenv. destruct (env !! name) as [v|] eqn:E; [|reflexivity].
  exact (Hvalues name v E).
Qed.

Lemma expand_idempotent_plain_values_witness :
  ExpandEnv envPort (ExpandEnv envPort "listen: ${PORT} $ $%")
  = ExpandEnv envPort "listen: ${PORT} $ $%".
Proof.
  apply (expand_idempotent_plain_values envPort "listen: ${PORT} $ $%").
  intros name value H. unfold envPort in H.
  apply lookup_insert_Some in H as [[_ <-]|[_ H]]; [reflexivity|].
  rewrite lookup_empty in H. discriminate.
Defined.

(** C4, as stated, fails: a value that holds a reference is expanded by the
    second substitution. *)
Lemma expand_twice_differs :
  ExpandEnv envChain "$X" = "$Y"
  /\ ExpandEnv envChain (ExpandEnv envChain "$X") = ""
  /\ ExpandEnv envChain (ExpandEnv envChain "$X") <> ExpandEnv envChain "$X".
Proof. repeat split; try reflexivity. vm_compute. discriminate. Qed.

(* ===================================================================== *)
(** ** The walk over the watched tree *)
(* ===================================================================== *)

(** Induction on a watched tree: a directory has the property as soon as
    all its entries have it. *)
Lemma Node_induction (P : Node -> Prop) :
  P Missing ->
  (forall r, P (File r)) ->
  (forall listable entries,
      Forall (fun e => P (snd e)) entries -> P (Dir listable entries)) ->
  forall n, P n.
Proof.
  intros HM HF HD. fix IH 1. intros [| r | listable entries].
  - exact HM.
  - apply HF.
  - apply HD. induction entries as [|[name child] rest IHrest].
    + constructor.
    + constructor; [apply IH | exact IHrest].
Qed.

Lemma andThen_fst (a b : Act) fs : fst (andThen a b fs) = fst (b (fst (a fs))).
Proof. unfold andThen. destruct (a fs) as [fs1 t1]. simpl. now destruct (b fs1). Qed.

Lemma andThen_snd (a b : Act) fs :
  snd (andThen a b fs) = snd (a fs) ++ snd (b (fst (a fs))).
Proof. unfold andThen. destruct (a fs) as [fs1 t1]. simpl. now destruct (b fs1). Qed.

Lemma andThen_skip_l (a : Act) fs : andThen skip a fs = a fs.
Proof. unfold andThen, skip. now destruct (a fs). Qed.

Lemma andThen_ext (a b b' : Act) fs :
  (forall fs', b fs' = b' fs') -> andThen a b fs = andThen a b' fs.
Proof. intros H. unfold andThen. destruct (a fs) as [fs1 t1]. now rewrite H. Qed.

Lemma andThen_assoc (a b c : Act) fs :
  andThen (andThen a b) c fs = andThen a (andThen b c) fs.
Proof.
  unfold andThen. destruct (a fs) as [fs1 t1]. destruct (b fs1) as [fs2 t2].
  destruct (c fs2) as [fs3 t3]. now rewrite app_assoc.
Qed.

Lemma readsOf_app t1 t2 : readsOf (t1 ++ t2) = readsOf t1 ++ readsOf t2.
Proof. apply flat_map_app. Qed.

Lemma errorsOf_app t1 t2 : errorsOf (t1 ++ t2) = errorsOf t1 ++ errorsOf t2.
Proof. apply flat_map_app. Qed.

Section WalkFacts.

Variable Join : string -> string -> string.
Variable environ : Environ.
Variable writable : string -> bool.

#[local] Abbreviation walk := (processConfigChanges Join environ writable).
#[local] Abbreviation walkEntries := (processEntries Join environ writable).
#[local] Abbreviation doFile := (processFile Join environ writable).
#[local] Abbreviation doFiles := (processFiles Join environ writable).

(** The walk of a directory that can be listed is the loop over its
    entries. *)
Lemma walk_dir srcPath dstPath entries fs :
  walk srcPath dstPath (Dir true entries) fs
  = andThen (andThen (effect (Log Debug (MsgProcessing srcPath)))
                     (effect (Stat srcPath)))
            (andThen (effect (ReadDir srcPath))
                     (walkEntries srcPath dstPath entries)) fs.
Proof.
  cbn [processConfigChanges].
  assert (H : (fix range (files : list (string * Node)) : Act :=
                 match files with
                 | [] => skip
                 | (fileName, child) :: rest =>
                     andThen (walk (Join srcPath fileName) dstPath child) (range rest)
                 end) entries = walkEntries srcPath dstPath entries).
  { induction entries as [|[name child] rest IH]; [reflexivity|].
    cbn [processEntries]. now rewrite <- IH. }
  rewrite H. reflexivity.
Qed.

Lemma regularFiles_dir srcPath entries :
  regularFiles Join srcPath (Dir true entries) = entryFiles Join srcPath entries.
Proof.
  cbn [regularFiles]. induction entries as [|[name child] rest IH]; [reflexivity|].
  cbn [entryFiles]. now rewrite <- IH.
Qed.

Lemma filePositions_dir entries :
  filePositions (Dir true entries) = entryPositions 0 entries.
Proof.
  cbn [filePositions]. generalize 0%nat.
  induction entries as [|[name child] rest IH]; intros k; [reflexivity|].
  cbn [entryPositions]. now rewrite IH.
Qed.

Lemma doFiles_app dstPath l1 l2 fs :
  doFiles dstPath (l1 ++ l2) fs
  = andThen (doFiles dstPath l1) (doFiles dstPath l2) fs.
Proof.
  revert fs; induction l1 as [|[p r] l1 IH]; intros fs.
  - cbn [app processFiles]. now rewrite andThen_skip_l.
  - cbn [app processFiles]. rewrite andThen_assoc. apply andThen_ext, IH.
Qed.

(** The target files after the walk are those after [processFile] on the
    regular files it can reach, in order; and these are the files it
    reads. *)
Lemma walk_files srcPath dstPath n : forall fs,
  fst (walk srcPath dstPath n fs)
  = fst (doFiles dstPath (regularFiles Join srcPath n) fs).
Proof.
  revert srcPath.
  induction n as [| r | listable entries IH] using Node_induction; intros srcPath fs.
  - reflexivity.
  - cbn [processConfigChanges regularFiles processFiles].
    rewrite !andThen_fst. reflexivity.
  - destruct listable; [|reflexivity].
    rewrite walk_dir, regularFiles_dir, !andThen_fst. cbn [fst andThen effect].
    revert fs. induction IH as [|[name child] rest Hchild _ IHrest]; intros fs.
    + reflexivity.
    + cbn [processEntries entryFiles]. rewrite doFiles_app, !andThen_fst.
      cbn [snd] in Hchild. rewrite <- Hchild. apply IHrest.
Qed.

Lemma doFile_reads p dstPath r fs : readsOf (snd (doFile p dstPath r fs)) = [p].
Proof.
  unfold processFile. rewrite !andThen_snd, !readsOf_app.
  unfold writeFile. destruct r, (writable _); reflexivity.
Qed.

Lemma walk_reads srcPath dstPath n : forall fs,
  readsOf (snd (walk srcPath dstPath n fs)) = fst <$> regularFiles Join srcPath n.
Proof.
  revert srcPath.
  induction n as [| r | listable entries IH] using Node_induction; intros srcPath fs.
  - reflexivity.
  - cbn [processConfigChanges regularFiles].
    rewrite !andThen_snd, !readsOf_app, doFile_reads. reflexivity.
  - destruct listable; [|reflexivity].
    rewrite walk_dir, regularFiles_dir, !andThen_snd, !readsOf_app.
    cbn [effect snd fst readsOf flat_map app andThen].
    revert fs. induction IH as [|[name child] rest Hchild _ IHrest]; intros fs.
    + reflexivity.
    + cbn [processEntries entryFiles]. rewrite andThen_snd, readsOf_app, fmap_app.
      cbn [snd] in Hchild. rewrite Hchild. now rewrite IHrest.
Qed.

End WalkFacts.

(** *** Positions of the regular files *)

(** The positions below the entries numbered from [k]. *)
Lemma elem_of_entryPositions entries : forall k pos,
  pos ∈ entryPositions k entries <->
  exists i below name child,
    pos = (k + i)%nat :: below /\ entries !! i = Some (name, child)
    /\ below ∈ filePositions child.
Proof.
  induction entries as [|[name child] rest IH]; intros k pos; cbn [entryPositions].
  - rewrite elem_of_nil. split; [intros [] |].
    intros (i & below & n & c & _ & H & _). discriminate.
  - rewrite elem_of_app, list_elem_of_fmap, IH. split.
    + intros [(below & -> & Hin) | (i & below & n & c & -> & Hl & Hin)].
      * exists 0%nat, below, name, child. rewrite Nat.add_0_r. auto.
      * exists (S i), below, n, c. rewrite <- Nat.add_succ_comm. auto.
    + intros (i & below & n & c & -> & Hl & Hin). destruct i as [|i].
      * left. cbn in Hl. inversion Hl; subst. exists below.
        now rewrite Nat.add_0_r.
      * right. exists i, below, n, c. now rewrite <- Nat.add_succ_comm.
Qed.

(** No position is listed twice. *)
Lemma NoDup_filePositions n : NoDup (filePositions n).
Proof.
  induction n as [| r | listable entries IH] using Node_induction.
  - constructor.
  - apply NoDup_singleton.
  - destruct listable; [|constructor].
    rewrite filePositions_dir. generalize 0%nat.
    induction IH as [|[name child] rest Hchild _ IHrest]; intros k;
      cbn [entryPositions]; [constructor|].
    apply NoDup_app. split; [|split].
    + apply NoDup_fmap_2; [|exact Hchild].
      intros a b H. now inversion H.
    + intros pos [below [-> _]]%list_elem_of_fmap
             (i & below' & n & c & Heq & _)%elem_of_entryPositions.
      inversion Heq. lia.
    + apply IHrest.
Qed.

(** The listed positions are those of the regular files the walk can
    reach. *)
Lemma elem_of_filePositions n : forall pos,
  pos ∈ filePositions n <-> exists r, nodeAt pos n = Some (File r).
Proof.
  induction n as [| r | listable entries IH] using Node_induction; intros pos.
  - cbn [filePositions]. rewrite elem_of_nil. split; [intros [] | intros [r H]].
    destruct pos; discriminate.
  - cbn [filePositions]. rewrite list_elem_of_singleton. split.
    + intros ->. now exists r.
    + intros [r' H]. destruct pos; [reflexivity | discriminate].
  - destruct listable.
    + rewrite filePositions_dir, elem_of_entryPositions.
      rewrite Forall_forall in IH. split.
      * intros (i & below & name & child & -> & Hl & Hin).
        cbn [nodeAt Nat.add]. rewrite Hl.
        apply (IH (name, child)); [|exact Hin].
        eapply list_elem_of_lookup_2, Hl.
      * intros [r H]. destruct pos as [|i below]; [discriminate|].
        cbn [nodeAt] in H. destruct (entries !! i) as [[name child]|] eqn:Hl;
          [|discriminate].
        exists i, below, name, child. repeat split; [exact Hl|].
        apply (IH (name, child)); [|now exists r].
        eapply list_elem_of_lookup_2, Hl.
    + cbn [filePositions]. rewrite elem_of_nil.
      split; [intros [] | intros [r H]]. destruct pos; discriminate.
Qed.

(** The paths of the regular files are the paths of the listed
    positions. *)
Lemma regularFiles_paths Join n : forall srcPath,
  fst <$> regularFiles Join srcPath n
  = (fun pos => pathAt Join pos srcPath n) <$> filePositions n.
Proof.
  induction n as [| r | listable entries IH] using Node_induction; intros srcPath.
  - reflexivity.
  - reflexivity.
  - destruct listable; [|reflexivity].
    rewrite regularFiles_dir, filePositions_dir.
    assert (Hgen : forall done todo,
               entries = done ++ todo ->
               fst <$> entryFiles Join srcPath todo
               = (fun pos => pathAt Join pos srcPath (Dir true entries))
                   <$> entryPositions (length done) todo).
    { intros done todo. revert done.
      induction todo as [|[name child] rest IHrest]; intros done Heq; [reflexivity|].
      cbn [entryFiles entryPositions]. rewrite !fmap_app, <- list_fmap_compose.
      f_equal.
      - rewrite Forall_forall in IH.
        rewrite (IH (name, child)); [|subst; apply elem_of_app; right; left].
        apply list_fmap_ext. intros _ below _. cbn [pathAt snd compose].
        rewrite Heq, list_lookup_middle by reflexivity. reflexivity.
      - rewrite (IHrest (done ++ [(name, child)])).
        + rewrite length_app. cbn [length]. now rewrite Nat.add_1_r.
        + now rewrite <- app_assoc. }
    apply (Hgen [] entries). reflexivity.
Qed.

(** *** What the walk writes *)

Lemma writesOf_app t1 t2 : writesOf (t1 ++ t2) = writesOf t1 ++ writesOf t2.
Proof. apply flat_map_app. Qed.

Section WriteFacts.

Variable Join : string -> string -> string.
Variable environ : Environ.
Variable writable : string -> bool.

#[local] Abbreviation walk' := (processConfigChanges Join environ writable).
#[local] Abbreviation walkEntries' := (processEntries Join environ writable).
#[local] Abbreviation doFile' := (processFile Join environ writable).
#[local] Abbreviation doFiles' := (processFiles Join environ writable).
#[local] Abbreviation target := (targetFile Join).

Lemma doFile_files p dstPath r fs :
  fst (doFile' p dstPath r fs)
  = if writable (target dstPath p)
    then <[target dstPath p := ExpandEnv environ (bytesOf r)]> fs
    else fs.
Proof.
  unfold processFile. rewrite !andThen_fst. unfold writeFile, targetFile.
  destruct r; cbn [effect skip fst]; now destruct (writable _).
Qed.

Lemma doFile_writes p dstPath r fs :
  writesOf (snd (doFile' p dstPath r fs)) = [writeOf Join environ writable dstPath (p, r)].
Proof.
  unfold processFile. rewrite !andThen_snd, !writesOf_app.
  unfold writeFile, writeOf, targetFile. cbn [fst snd].
  destruct r; cbn [effect skip fst snd writesOf flat_map app];
    now destruct (writable _).
Qed.

Lemma doFile_errors p dstPath r fs :
  errorsOf (snd (doFile' p dstPath r fs))
  = match r with ReadErr _ => [MsgErrReading p] | ReadOk _ => [] end.
Proof.
  unfold processFile. rewrite !andThen_snd, !errorsOf_app.
  unfold writeFile.
  destruct r; cbn [effect skip fst snd errorsOf flat_map app];
    now destruct (writable _).
Qed.

(** Files written elsewhere leave a target path as it was. *)
Lemma doFiles_other dstPath T l : forall fs,
  Forall (fun f => target dstPath (fst f) <> T) l ->
  fst (doFiles' dstPath l fs) !! T = fs !! T.
Proof.
  induction l as [|[p r] l IH]; intros fs Hl; [reflexivity|].
  apply Forall_cons in Hl as [Hp Hl]. cbn [processFiles fst] in *.
  rewrite andThen_fst, (IH _ Hl), doFile_files.
  destruct (writable _); [now rewrite lookup_insert_ne | reflexivity].
Qed.

(** The last file written to a target path decides what it holds. *)
Lemma doFiles_last dstPath before p r after fs :
  Forall (fun f => target dstPath (fst f) <> target dstPath p) after ->
  writable (target dstPath p) = true ->
  fst (doFiles' dstPath (before ++ (p, r) :: after) fs) !! target dstPath p
  = Some (ExpandEnv environ (bytesOf r)).
Proof.
  intros Hafter Hw.
  rewrite doFiles_app, andThen_fst. cbn [processFiles].
  rewrite andThen_fst, (doFiles_other _ _ _ _ Hafter), doFile_files, Hw.
  apply lookup_insert_eq.
Qed.

Lemma walk_writes srcPath dstPath n : forall fs,
  writesOf (snd (walk' srcPath dstPath n fs))
  = writeOf Join environ writable dstPath <$> regularFiles Join srcPath n.
Proof.
  revert srcPath.
  induction n as [| r | listable entries IH] using Node_induction; intros srcPath fs.
  - reflexivity.
  - cbn [processConfigChanges regularFiles].
    rewrite !andThen_snd, !writesOf_app, doFile_writes. reflexivity.
  - destruct listable; [|reflexivity].
    rewrite walk_dir, regularFiles_dir, !andThen_snd, !writesOf_app.
    cbn [effect snd fst writesOf flat_map app andThen].
    revert fs. induction IH as [|[name child] rest Hchild _ IHrest]; intros fs.
    + reflexivity.
    + cbn [processEntries entryFiles]. rewrite andThen_snd, writesOf_app, fmap_app.
      cbn [snd] in Hchild. rewrite Hchild. now rewrite IHrest.
Qed.

Lemma entryFiles_app srcPath l1 l2 :
  entryFiles Join srcPath (l1 ++ l2)
  = entryFiles Join srcPath l1 ++ entryFiles Join srcPath l2.
Proof.
  induction l1 as [|[name child] l1 IH]; [reflexivity|].
  cbn [app entryFiles]. now rewrite IH, app_assoc.
Qed.

Lemma walkEntries_app srcPath dstPath l1 l2 fs :
  walkEntries' srcPath dstPath (l1 ++ l2) fs
  = andThen (walkEntries' srcPath dstPath l1) (walkEntries' srcPath dstPath l2) fs.
Proof.
  revert fs; induction l1 as [|[name child] l1 IH]; intros fs.
  - cbn [app processEntries]. now rewrite andThen_skip_l.
  - cbn [app processEntries]. rewrite andThen_assoc. apply andThen_ext, IH.
Qed.

Lemma walkEntries_reads srcPath dstPath entries fs :
  readsOf (snd (walkEntries' srcPath dstPath entries fs))
  = fst <$> entryFiles Join srcPath entries.
Proof.
  rewrite <- regularFiles_dir.
  rewrite <- (walk_reads Join environ writable srcPath dstPath (Dir true entries) fs).
  rewrite walk_dir, !andThen_snd, !readsOf_app. reflexivity.
Qed.

End WriteFacts.

(** C10: the walk is a total function on watched trees (its recursion is
    on the tree, so it returns on every finite tree), and the files it
    reads are the regular files of the tree it can reach, each one once:
    the paths read are, in order, the paths of the positions of those
    files, and no position is listed twice. *)
Theorem walk_reads_each_file_once
    (Join : string -> string -> string) (environ : Environ)
    (writable : string -> bool) (srcPath dstPath : string) (n : Node) (fs : Files) :
  (exists fs' t,
      processConfigChanges Join environ writable srcPath dstPath n fs = (fs', t)
      /\ readsOf t = (fun pos => pathAt Join pos srcPath n) <$> filePositions n)
  /\ NoDup (filePositions n)
  /\ (forall pos, pos ∈ filePositions n <-> exists r, nodeAt pos n = Some (File r)).
Proof.
  split; [|split].
  - destruct (processConfigChanges Join environ writable srcPath dstPath n fs)
      as [fs' t] eqn:E.
    exists fs', t. split; [reflexivity|].
    rewrite <- regularFiles_paths.
    rewrite <- (walk_reads Join environ writable srcPath dstPath n fs), E.
    reflexivity.
  - apply NoDup_filePositions.
  - apply elem_of_filePositions.
Qed.

(** C9: two regular files with the same base name are written to the same
    target path, and once the walk is over that path holds what the one
    processed last gave (when the path can be written). *)
Theorem same_base_name_last_wins
    (Join : string -> string -> string) (environ : Environ)
    (writable : string -> bool) (srcPath dstPath : string) (n : Node) (fs : Files)
    (before between after : list (string * ReadResult))
    (p1 p2 : string) (r1 r2 : ReadResult) :
  regularFiles Join srcPath n = before ++ (p1, r1) :: between ++ (p2, r2) :: after ->
  snd (Split p1) = snd (Split p2) ->
  Forall (fun f => targetFile Join dstPath (fst f) <> targetFile Join dstPath p2) after ->
  writable (targetFile Join dstPath p2) = true ->
  let result := processConfigChanges Join environ writable srcPath dstPath n fs in
  let T := targetFile Join dstPath p2 in
  targetFile Join dstPath p1 = T
  /\ (T, ExpandEnv environ (bytesOf r1), true) ∈ writesOf (snd result)
  /\ (T, ExpandEnv environ (bytesOf r2), true) ∈ writesOf (snd result)
  /\ fst result !! T = Some (ExpandEnv environ (bytesOf r2)).
Proof.
  intros Hfiles Hbase Hafter Hw result T. subst result T.
  assert (HT : targetFile Join dstPath p1 = targetFile Join dstPath p2).
  { unfold targetFile. now rewrite Hbase. }
  split; [exact HT|]. rewrite walk_writes, Hfiles.
  split; [|split].
  - apply list_elem_of_fmap. exists (p1, r1). split.
    + unfold writeOf. cbn [fst snd]. now rewrite HT, Hw.
    + apply elem_of_app. right. left.
  - apply list_elem_of_fmap. exists (p2, r2). split.
    + unfold writeOf. cbn [fst snd]. now rewrite Hw.
    + apply elem_of_app. right. right. apply elem_of_app. right. left.
  - rewrite walk_files, Hfiles.
    replace (before ++ (p1, r1) :: between ++ (p2, r2) :: after)
      with ((before ++ (p1, r1) :: between) ++ (p2, r2) :: after)
      by (now rewrite <- app_assoc).
    now apply doFiles_last.
Qed.

Lemma same_base_name_last_wins_witness :
  let result :=
    processConfigChanges joinClean envPort (fun _ => true)
      "/config" "/processed-config" sameName ∅ in
  let T := targetFile joinClean "/processed-config" "/config/b/x.yml" in
  targetFile joinClean "/processed-config" "/config/a/x.yml" = T
  /\ (T, ExpandEnv envPort "from a", true) ∈ writesOf (snd result)
  /\ (T, ExpandEnv envPort "from b", true) ∈ writesOf (snd result)
  /\ fst result !! T = Some (ExpandEnv envPort "from b").
Proof.
  apply (same_base_name_last_wins joinClean envPort (fun _ => true)
           "/config" "/processed-config" sameName ∅
           [] [] [] "/config/a/x.yml" "/config/b/x.yml"
           (ReadOk "from a") (ReadOk "from b")).
  - reflexivity.
  - reflexivity.
  - constructor.
  - reflexivity.
Defined.

(* ===================================================================== *)
(** ** The coordinator *)
(* ===================================================================== *)

Section CoordinatorFacts.

Variable Join : string -> string -> string.
Variable environ : Environ.
Variable cfg : Config.

(** The walk begins by stating its source path. *)
Lemma walk_stats_source writable srcPath dstPath n fs :
  Stat srcPath ∈ snd (processConfigChanges Join environ writable srcPath dstPath n fs).
Proof.
  destruct n; cbn [processConfigChanges]; rewrite !andThen_snd;
    cbn [effect snd fst]; apply elem_of_app; left; right; left.
Qed.

Lemma notify_posts url res : Post url res ∈ notifyPrometheus url res.
Proof. unfold notifyPrometheus. right. left. Qed.

(** A pass always comes to its end, and the coordinator then holds the
    reading of the clock. *)
Lemma runPass_coordinator pe c fs :
  fst (fst (runPass Join environ cfg pe c fs))
  = {| lastConfigProcess := now (wallClock pe) (monoClock pe);
       lastConfigChange := lastConfigChange c;
       delayTimer := delayTimer c |}.
Proof. unfold runPass. now destruct (processConfigChanges _ _ _ _ _ _ _). Qed.

Lemma runPass_trace pe c fs :
  snd (runPass Join environ cfg pe c fs)
  = snd (processConfigChanges Join environ (canWrite pe)
           (watchedPath cfg) (targetPath cfg) (source pe) fs)
    ++ notifyPrometheus (prometheusUrl cfg) (postResult pe).
Proof. unfold runPass. now destruct (processConfigChanges _ _ _ _ _ _ _). Qed.

End CoordinatorFacts.

(** C1: when the timer's tick is taken, the walk and the reload request
    happen exactly when [lastConfigProcess] is before [lastConfigChange];
    otherwise the coordinator's variables and the target files stay as
    they are and nothing is done. *)
Theorem timer_case_passes_iff_before
    (Join : string -> string -> string) (environ : Environ) (cfg : Config)
    (pe : PassEnv) (c : Coordinator) (fs : Files) :
  let result := timerCase Join environ cfg pe c fs in
  let due := Before (lastConfigProcess c) (lastConfigChange c) in
  (Stat (watchedPath cfg) ∈ snd result <-> due = true)
  /\ (Post (prometheusUrl cfg) (postResult pe) ∈ snd result <-> due = true)
  /\ (if due
      then lastConfigProcess (fst (fst result)) = now (wallClock pe) (monoClock pe)
      else result = (c, fs, [])).
Proof.
  intros result due. subst result due. unfold timerCase.
  destruct (Before (lastConfigProcess c) (lastConfigChange c)).
  - repeat split; intros; try reflexivity.
    + rewrite runPass_trace. apply elem_of_app. left. apply walk_stats_source.
    + rewrite runPass_trace. apply elem_of_app. right. apply notify_posts.
    + now rewrite runPass_coordinator.
  - cbn [snd]. repeat split; try discriminate; intros H; now apply elem_of_nil in H.
Qed.

(** C6: a pass that starts ends with [lastConfigProcess] at the reading of
    the clock, whatever the walk and the reload request met; the other
    variables of the coordinator are as before, the timer is not armed
    again, and the coordinator ends in the same state whether the walk
    or the request failed or not. *)
Theorem pass_advances_lastConfigProcess
    (Join : string -> string -> string) (environ : Environ) (cfg : Config)
    (pe : PassEnv) (c : Coordinator) (fs : Files) :
  Before (lastConfigProcess c) (lastConfigChange c) = true ->
  let c' := fst (fst (timerCase Join environ cfg pe c fs)) in
  lastConfigProcess c' = now (wallClock pe) (monoClock pe)
  /\ lastConfigChange c' = lastConfigChange c
  /\ delayTimer c' = delayTimer c
  /\ (forall source' canWrite' postResult',
        fst (fst (timerCase Join environ cfg
                    {| source := source'; canWrite := canWrite';
                       postResult := postResult';
                       wallClock := wallClock pe; monoClock := monoClock pe |}
                    c fs)) = c').
Proof.
  intros Hdue c'. subst c'. unfold timerCase. rewrite Hdue.
  rewrite !runPass_coordinator. cbn [lastConfigProcess lastConfigChange delayTimer].
  repeat split; try reflexivity.
  intros. now rewrite runPass_coordinator.
Qed.

Lemma pass_advances_lastConfigProcess_witness :
  let c := coord started in
  let pe := failingEnv unreadableFirst 2000 20 in
  let c' := fst (fst (timerCase joinClean envPort defaultConfig pe c ∅)) in
  lastConfigProcess c' = now (wallClock pe) (monoClock pe)
  /\ lastConfigChange c' = lastConfigChange c
  /\ delayTimer c' = delayTimer c
  /\ (forall source' canWrite' postResult',
        fst (fst (timerCase joinClean envPort defaultConfig
                    {| source := source'; canWrite := canWrite';
                       postResult := postResult';
                       wallClock := wallClock pe; monoClock := monoClock pe |}
                    c ∅)) = c').
Proof.
  apply (pass_advances_lastConfigProcess joinClean envPort defaultConfig
           (failingEnv unreadableFirst 2000 20) (coord started) ∅).
  reflexivity.
Defined.

(* ===================================================================== *)
(** ** The program as a whole *)
(* ===================================================================== *)

(** Reads a hypothesis [step a s = Some s'] case by case. *)
Ltac step_cases H :=
  unfold step in H;
  repeat match type of H with
         | context [match ?x with _ => _ end] =>
             let E := fresh "E" in destruct x eqn:E; try discriminate
         end;
  try (injection H as <-).

Section ProgramFacts.

Variable Join : string -> string -> string.
Variable environ : Environ.
Variable cfg : Config.

#[local] Abbreviation step' := (step Join environ cfg).
#[local] Abbreviation exec' := (exec Join environ cfg).

Lemma exec_app acts1 acts2 s :
  exec' (acts1 ++ acts2) s
  = match exec' acts1 s with Some s' => exec' acts2 s' | None => None end.
Proof.
  revert s; induction acts1 as [|a acts1 IH]; intros s; [reflexivity|].
  cbn [app exec]. destruct (step' a s); [apply IH | reflexivity].
Qed.

(** *** The channel *)

(** No step changes the capacity of the channel. *)
Lemma step_cap a s s' : step' a s = Some s' -> cap (changeTime s') = cap (changeTime s).
Proof. intros H. step_cases H; reflexivity. Qed.

(** A channel without capacity never holds a value. *)
Lemma step_unbuffered a s s' :
  step' a s = Some s' ->
  cap (changeTime s) = 0%nat -> buf (changeTime s) = [] ->
  buf (changeTime s') = [].
Proof.
  intros H Hcap Hbuf. step_cases H; cbn; try assumption.
  rewrite Hcap in *. destruct (length _); discriminate.
Qed.

(** What a step does to the change times on their way. *)
Lemma step_pending a s s' :
  step' a s = Some s' ->
  received a ++ pending s' = pending s ++ statted a.
Proof.
  intros H. unfold pending. step_cases H; cbn [received statted app];
    rewrite ?app_nil_r; cbn;
    repeat match goal with
           | E : listener _ = _ |- _ => rewrite E
           | E : buf _ = _ |- _ => rewrite E
           | E : listenCase _ = _ |- _ => unfold listenCase in E
           end; try reflexivity.
  - destruct m as [|name [w|]]; inversion E2; subst; cbn;
      now rewrite ?app_nil_r.
  - subst. reflexivity.
  - subst. reflexivity.
Qed.

Lemma exec_pending acts : forall s s',
  exec' acts s = Some s' ->
  flat_map received acts ++ pending s' = pending s ++ flat_map statted acts.
Proof.
  induction acts as [|a acts IH]; intros s s' H.
  - inversion H. cbn. now rewrite app_nil_r.
  - cbn [exec] in H. destruct (step' a s) as [s1|] eqn:E; [|discriminate].
    cbn [flat_map]. rewrite <- app_assoc, (IH _ _ H), app_assoc.
    now rewrite (step_pending _ _ _ E), <- app_assoc.
Qed.

Lemma exec_unbuffered acts : forall s s',
  exec' acts s = Some s' ->
  cap (changeTime s) = 0%nat -> buf (changeTime s) = [] ->
  cap (changeTime s') = 0%nat /\ buf (changeTime s') = [].
Proof.
  induction acts as [|a acts IH]; intros s s' H Hcap Hbuf.
  - inversion H. now subst.
  - cbn [exec] in H. destruct (step' a s) as [s1|] eqn:E; [|discriminate].
    apply (IH _ _ H).
    + now rewrite (step_cap _ _ _ E).
    + now apply (step_unbuffered _ _ _ E).
Qed.

(** While the coordinator is in a pass, a listener at its send on a
    channel without capacity stays there. *)
Lemma step_blocked a s s' t :
  step' a s = Some s' ->
  cap (changeTime s) = 0%nat ->
  phase s = InPass -> listener s = Sending t ->
  listener s' = Sending t.
Proof.
  intros H Hcap Hphase Hl. step_cases H; cbn; try congruence.
  rewrite Hcap in *. destruct (length _); discriminate.
Qed.

(** Once the coordinator is back at its [select], it can take the value
    of the waiting listener. *)
Lemma step_rendezvous s t :
  status s = Running -> phase s = Selecting ->
  buf (changeTime s) = [] -> listener s = Sending t ->
  exists s', step' (Receive t) s = Some s'
             /\ lastConfigChange (coord s') = t
             /\ armed (delayTimer (coord s')) = true
             /\ listener s' = Listening.
Proof.
  intros Hst Hph Hbuf Hl. unfold step. rewrite Hst, Hph, Hbuf, Hl.
  rewrite decide_True by reflexivity. eexists. repeat split.
Qed.

(** A pass in progress can always come to its end. *)
Lemma step_pass_done s pe :
  status s = Running -> phase s = InPass ->
  exists s', step' (PassDone pe) s = Some s'
             /\ status s' = Running /\ phase s' = Selecting
             /\ listener s' = listener s /\ changeTime s' = changeTime s.
Proof.
  intros Hst Hph. unfold step. rewrite Hst, Hph.
  destruct (runPass Join environ cfg pe (coord s) (files s)) as [[c fs] t].
  eexists. repeat split.
Qed.

End ProgramFacts.

(** *** The start of the program *)

Section StartFacts.

Variable Join : string -> string -> string.
Variable environ : Environ.
Variable cfg : Config.

Lemma main_silentSince w0 m0 add fs0 :
  silentSince w0 m0 0 0 (main cfg w0 m0 true add fs0).
Proof. unfold silentSince, main. cbn. repeat split. left. repeat split. now left. Qed.

Lemma step_silentSince w0 m0 f d a s s' :
  (0 < w0)%Z ->
  silentSince w0 m0 f d s ->
  isFromWatcher a = false ->
  step Join environ cfg a s = Some s' ->
  silentSince w0 m0 (f + fires [a]) (d + passes [a]) s'.
Proof.
  intros Hw (Hl & Hb & Hc & Hcases) Ha H. unfold silentSince.
  assert (Hdue : lastConfigProcess (coord s) = zero ->
                 Before (lastConfigProcess (coord s)) (lastConfigChange (coord s)) = true).
  { intros Hz. rewrite Hz, Hc. now apply Before_zero_now. }
  destruct Hcases as [(-> & -> & Hp & Hz & [Ht|Ht])
                     | [(-> & -> & Hp & Ht) | (-> & -> & Hp & Ht)]];
    step_cases H; try discriminate;
    try (rewrite Hdue in * by assumption);
    rewrite ?Ht, ?Hp, ?Hl, ?Hb in *; try discriminate;
    cbn [fires passes List.filter isTimerFire isPassDone length Nat.add];
    cbn [listener changeTime coord phase buf setListener setBuf setCoord setPhase
         setTimer logged exitWith lastConfigChange lastConfigProcess delayTimer
         expired drained armed tick];
    try match goal with
        | E : runPass _ _ _ ?pe ?c ?fs = (?c', _, _) |- _ =>
            let Hrun := fresh "Hrun" in
            pose proof (runPass_coordinator Join environ cfg pe c fs) as Hrun;
            rewrite E in Hrun; cbn [fst] in Hrun; subst c';
            cbn [lastConfigChange lastConfigProcess delayTimer]
        end;
    (split; [congruence | split; [congruence | split; [congruence |]]]);
    first [ left; solve [repeat split; auto]
          | right; left; solve [repeat split; auto]
          | right; right; solve [repeat split; auto] ].
Qed.

Lemma exec_silentSince w0 m0 acts : forall f d s s',
  (0 < w0)%Z ->
  silentSince w0 m0 f d s ->
  forallb (fun a => negb (isFromWatcher a)) acts = true ->
  exec Join environ cfg acts s = Some s' ->
  silentSince w0 m0 (f + fires acts) (d + passes acts) s'.
Proof.
  induction acts as [|a acts IH]; intros f d s s' Hw Hinv Hacts H.
  - inversion H; subst. cbn. now rewrite !Nat.add_0_r.
  - cbn [forallb] in Hacts. apply andb_prop in Hacts as [Ha Hacts].
    apply negb_true_iff in Ha.
    cbn [exec] in H. destruct (step Join environ cfg a s) as [s1|] eqn:E; [|discriminate].
    pose proof (step_silentSince _ _ _ _ _ _ _ Hw Hinv Ha E) as Hinv1.
    pose proof (IH _ _ _ _ Hw Hinv1 Hacts H) as Hinv2.
    replace (f + fires (a :: acts))%nat with (f + fires [a] + fires acts)%nat.
    + replace (d + passes (a :: acts))%nat with (d + passes [a] + passes acts)%nat.
      * exact Hinv2.
      * unfold passes. cbn [List.filter]. destruct (isPassDone a); cbn [length]; lia.
    + unfold fires. cbn [List.filter]. destruct (isTimerFire a); cbn [length]; lia.
Qed.

End StartFacts.

(** C7: the program starts with [lastConfigChange] at the reading of the
    clock, [lastConfigProcess] before it and the timer armed without
    delay; the first tick taken starts a pass, and as long as the watcher
    reports nothing there is no second tick and no second pass. *)
Theorem startup_runs_one_pass
    (Join : string -> string -> string) (environ : Environ) (cfg : Config)
    (w0 m0 : Z) (add : AddResult) (fs0 : Files) (pe : PassEnv)
    (acts : list Action) (s : Sys) :
  (0 < w0)%Z ->
  forallb (fun a => negb (isFromWatcher a)) acts = true ->
  exec Join environ cfg acts (main cfg w0 m0 true add fs0) = Some s ->
  let s0 := main cfg w0 m0 true add fs0 in
  (lastConfigChange (coord s0) = now w0 m0
   /\ Before (lastConfigProcess (coord s0)) (lastConfigChange (coord s0)) = true
   /\ delayTimer (coord s0) = NewTimer)
  /\ (exists s1, exec Join environ cfg [Expire; TimerFire; PassDone pe] s0 = Some s1
                 /\ lastConfigProcess (coord s1) = now (wallClock pe) (monoClock pe)
                 /\ phase s1 = Selecting)
  /\ (fires acts <= 1)%nat
  /\ (passes acts <= fires acts)%nat
  /\ (fires acts = 0%nat \/ passes acts = 1%nat \/ phase s = InPass).
Proof.
  intros Hw Hacts Hexec s0. subst s0. split; [|split].
  - unfold main. cbn -[Before]. repeat split. now apply Before_zero_now.
  - pose proof (Before_zero_now w0 m0 Hw) as Hdue.
    unfold main. cbn -[Before runPass]. rewrite Hdue. cbn -[Before runPass].
    pose proof (runPass_coordinator Join environ cfg pe
                  {| lastConfigProcess := zero; lastConfigChange := now w0 m0;
                     delayTimer := {| armed := false; tick := false |} |} fs0) as Hrun.
    destruct (runPass _ _ _ _ _ _) as [[c fs] t]. cbn [fst] in Hrun. subst c.
    eexists. repeat split.
  - pose proof (exec_silentSince Join environ cfg w0 m0 acts 0 0 _ _ Hw
                  (main_silentSince cfg w0 m0 add fs0) Hacts Hexec)
      as (_ & _ & _ & Hcases).
    cbn [Nat.add] in Hcases.
    destruct Hcases as [(-> & -> & _) | [(-> & -> & Hp & _) | (-> & -> & _)]];
      repeat split; auto.
Qed.

Lemma startup_runs_one_pass_witness :
  let pe := passEnv oneFile 2000 20 in
  let acts := [Expire; TimerFire; PassDone pe] in
  let s0 := main defaultConfig 1000 10 true AddOk ∅ in
  (lastConfigChange (coord s0) = now 1000 10
   /\ Before (lastConfigProcess (coord s0)) (lastConfigChange (coord s0)) = true
   /\ delayTimer (coord s0) = NewTimer)
  /\ (exists s1, exec joinClean envPort defaultConfig [Expire; TimerFire; PassDone pe] s0 = Some s1
                 /\ lastConfigProcess (coord s1) = now (wallClock pe) (monoClock pe)
                 /\ phase s1 = Selecting)
  /\ (fires acts <= 1)%nat
  /\ (passes acts <= fires acts)%nat
  /\ (fires acts = 0%nat \/ passes acts = 1%nat \/ phase afterFirstPass = InPass).
Proof.
  apply (startup_runs_one_pass joinClean envPort defaultConfig 1000 10 AddOk ∅
           (passEnv oneFile 2000 20)
           [Expire; TimerFire; PassDone (passEnv oneFile 2000 20)] afterFirstPass).
  - reflexivity.
  - reflexivity.
  - vm_compute. reflexivity.
Defined.

(* ===================================================================== *)
(** ** The listener and the channel *)
(* ===================================================================== *)

(** C2, amended: the channel [startWatchingPath] makes has no buffer.  It
    never holds a value; a change time the listener has obtained waits
    with the listener at its send, which does not complete while the
    coordinator is in a pass; once the coordinator is back at its
    [select] it can receive the value.  No change time is lost or
    reordered on the way: those obtained so far are those received so
    far, followed by the one waiting, if any. *)
Theorem unbuffered_handoff_keeps_change_times
    (Join : string -> string -> string) (environ : Environ) (cfg : Config)
    (w0 m0 : Z) (add : AddResult) (fs0 : Files) (acts : list Action) (s : Sys) :
  exec Join environ cfg acts (main cfg w0 m0 true add fs0) = Some s ->
  (cap (changeTime s) = 0%nat /\ buf (changeTime s) = [])
  /\ flat_map statted acts = flat_map received acts ++ pending s
  /\ (length (pending s) <= 1)%nat
  /\ (forall t a s',
        listener s = Sending t -> phase s = InPass ->
        step Join environ cfg a s = Some s' -> listener s' = Sending t)
  /\ (forall t pe,
        listener s = Sending t -> status s = Running ->
        exists s1 s2,
          (phase s = Selecting /\ s1 = s
           \/ phase s = InPass /\ step Join environ cfg (PassDone pe) s = Some s1)
          /\ step Join environ cfg (Receive t) s1 = Some s2
          /\ lastConfigChange (coord s2) = t
          /\ listener s2 = Listening).
Proof.
  intros Hexec.
  destruct (exec_unbuffered Join environ cfg acts _ _ Hexec eq_refl eq_refl)
    as [Hcap Hbuf].
  pose proof (exec_pending Join environ cfg acts _ _ Hexec) as Hpend.
  cbn [pending main startWatchingPath makeChan changeTime buf listener app] in Hpend.
  split; [now split|]. split; [now symmetry|]. split; [|split].
  - unfold pending. rewrite Hbuf. destruct (listener s); cbn; lia.
  - intros t a s' Hl Hp Hstep. exact (step_blocked _ _ _ _ _ _ _ Hstep Hcap Hp Hl).
  - intros t pe Hl Hst. destruct (phase s) eqn:Hp.
    + destruct (step_rendezvous Join environ cfg s t Hst Hp Hbuf Hl)
        as (s2 & Hstep & Hc & _ & Hl2).
      exists s, s2. repeat split; auto.
    + destruct (step_pass_done Join environ cfg s pe Hst Hp)
        as (s1 & Hstep1 & Hst1 & Hp1 & Hl1 & Hch1).
      destruct (step_rendezvous Join environ cfg s1 t Hst1 Hp1) as (s2 & Hstep & Hc & _ & Hl2).
      * now rewrite Hch1.
      * now rewrite Hl1.
      * exists s1, s2. repeat split; auto.
Qed.

Lemma unbuffered_handoff_keeps_change_times_witness :
  let acts := [Expire; TimerFire; FromWatcher (WatcherEvent "/config/a.yml" (Some 500%Z))] in
  let s := duringFirstPass in
  (cap (changeTime s) = 0%nat /\ buf (changeTime s) = [])
  /\ flat_map statted acts = flat_map received acts ++ pending s
  /\ (length (pending s) <= 1)%nat
  /\ (forall t a s',
        listener s = Sending t -> phase s = InPass ->
        step joinClean envPort defaultConfig a s = Some s' -> listener s' = Sending t)
  /\ (forall t pe,
        listener s = Sending t -> status s = Running ->
        exists s1 s2,
          (phase s = Selecting /\ s1 = s
           \/ phase s = InPass /\ step joinClean envPort defaultConfig (PassDone pe) s = Some s1)
          /\ step joinClean envPort defaultConfig (Receive t) s1 = Some s2
          /\ lastConfigChange (coord s2) = t
          /\ listener s2 = Listening).
Proof.
  apply (unbuffered_handoff_keeps_change_times joinClean envPort defaultConfig
           1000 10 AddOk ∅
           [Expire; TimerFire; FromWatcher (WatcherEvent "/config/a.yml" (Some 500%Z))]
           duringFirstPass).
  vm_compute. reflexivity.
Defined.

(** C2, as stated, fails: the channel buffers nothing, and while the
    coordinator is in a pass the listener's send cannot complete, neither
    into a buffer nor to the coordinator. *)
Lemma unbuffered_send_waits_for_pass :
  exec joinClean envPort defaultConfig
    [Expire; TimerFire; FromWatcher (WatcherEvent "/config/a.yml" (Some 500%Z))]
    started = Some duringFirstPass
  /\ phase duringFirstPass = InPass
  /\ listener duringFirstPass = Sending (modTime 500)
  /\ cap (changeTime duringFirstPass) = 0%nat
  /\ ~ (1 <= cap (changeTime duringFirstPass))%nat
  /\ step joinClean envPort defaultConfig SendBuffered duringFirstPass = None
  /\ step joinClean envPort defaultConfig (Receive (modTime 500)) duringFirstPass = None.
Proof.
  repeat split; try (vm_compute; reflexivity). vm_compute. lia.
Qed.

(** C8: when [os.Stat] fails on the path of an event, the listener logs an
    error and goes back to its [select]: it sends nothing (the channel,
    the coordinator and the change times on their way are as before, and
    the event adds no change time to those obtained), and it takes the
    next message of the watcher. *)
Theorem stat_failure_drops_event
    (Join : string -> string -> string) (environ : Environ) (cfg : Config)
    (s : Sys) (name : string) :
  status s = Running ->
  listener s = Listening ->
  exists s',
    step Join environ cfg (FromWatcher (WatcherEvent name None)) s = Some s'
    /\ trace s' = trace s ++ [Log Debug (MsgReceivedEvent name); Stat name;
                              Log Error (MsgNoModTime name)]
    /\ statted (FromWatcher (WatcherEvent name None)) = []
    /\ pending s' = pending s
    /\ changeTime s' = changeTime s
    /\ coord s' = coord s
    /\ status s' = Running
    /\ listener s' = Listening
    /\ (forall m, exists s'', step Join environ cfg (FromWatcher m) s' = Some s'').
Proof.
  intros Hst Hl. unfold step at 1. rewrite Hst, Hl. cbn [listenCase].
  eexists. split; [reflexivity|]. unfold pending. cbn. rewrite Hl.
  repeat split; try assumption.
  intros m. unfold step. cbn. rewrite Hst. destruct (listenCase m). eexists. reflexivity.
Qed.

Lemma stat_failure_drops_event_witness :
  exists s',
    step joinClean envPort defaultConfig
      (FromWatcher (WatcherEvent "/config/gone.yml" None)) started = Some s'
    /\ trace s' = trace started ++ [Log Debug (MsgReceivedEvent "/config/gone.yml");
                                    Stat "/config/gone.yml";
                                    Log Error (MsgNoModTime "/config/gone.yml")]
    /\ statted (FromWatcher (WatcherEvent "/config/gone.yml" None)) = []
    /\ pending s' = pending started
    /\ changeTime s' = changeTime started
    /\ coord s' = coord started
    /\ status s' = Running
    /\ listener s' = Listening
    /\ (forall m, exists s'',
           step joinClean envPort defaultConfig (FromWatcher m) s' = Some s'').
Proof.
  apply (stat_failure_drops_event joinClean envPort defaultConfig started
           "/config/gone.yml"); reflexivity.
Defined.

(* ===================================================================== *)
(** ** Failures on single files *)
(* ===================================================================== *)

(** C5: the code departs from the claim.  On a file that cannot be read
    [processFile] logs the error and, having no [return] there, goes on:
    it expands the bytes that came back with the error (none), and writes
    them to the target.  Here the watched directory holds [a.yml], which
    cannot be read, and [b.yml]; the target already holds a good
    [a.yml].  After the walk the error is logged, both files were
    written, and the target [a.yml] is empty. *)
Theorem read_failure_overwrites_target :
  let before : Files := <["/processed-config/a.yml" := "job: 1"]> ∅ in
  let result := processConfigChanges joinClean envPort (fun _ => true)
                  "/config" "/processed-config" unreadableFirst before in
  before !! "/processed-config/a.yml" = Some "job: 1"
  /\ errorsOf (snd result) = [MsgErrReading "/config/a.yml"]
  /\ readsOf (snd result) = ["/config/a.yml"; "/config/b.yml"]
  /\ writesOf (snd result) = [("/processed-config/a.yml", "", true);
                              ("/processed-config/b.yml", "job: 9090", true)]
  /\ fst result !! "/processed-config/a.yml" = Some ""
  /\ fst result !! "/processed-config/b.yml" = Some "job: 9090".
Proof. repeat split; vm_compute; reflexivity. Qed.

(** The result of [ioutil.WriteFile] is discarded: a write that fails
    leaves no line in the log. *)
Example write_failure_not_logged :
  let t := snd (processConfigChanges joinClean envPort (fun _ => false)
                  "/config" "/processed-config" oneFile ∅) in
  writesOf t = [("/processed-config/a.yml", "job: 9090", false)]
  /\ errorsOf t = [].
Proof. split; reflexivity. Qed.

(* ===================================================================== *)
(** ** Further properties: what [processFile] writes *)
(* ===================================================================== *)

Lemma ExpandEnv_plain env s : noDollar s = true -> ExpandEnv env s = s.
Proof.
  intros H. unfold ExpandEnv, Expand.
  rewrite <- (app_nil_r (list_ascii_of_string s)).
  rewrite expandFrom_plain_prefix by exact H.
  cbn [expandFrom]. rewrite app_nil_r. apply string_of_list_ascii_of_string.
Qed.

(** X1: a file whose bytes hold no dollar sign is written unchanged to its
    target, whatever the environment. *)
Theorem processFile_copies_plain_content
    (Join : string -> string -> string) (environ : Environ)
    (writable : string -> bool) (filePath destFolder : string)
    (r : ReadResult) (fs : Files) :
  noDollar (bytesOf r) = true ->
  let T := targetFile Join destFolder filePath in
  writesOf (snd (processFile Join environ writable filePath destFolder r fs))
    = [(T, bytesOf r, writable T)]
  /\ fst (processFile Join environ writable filePath destFolder r fs)
     = if writable T then <[T := bytesOf r]> fs else fs.
Proof.
  intros Hplain T. subst T. rewrite doFile_writes, doFile_files.
  unfold writeOf. cbn [fst snd]. now rewrite (ExpandEnv_plain _ _ Hplain).
Qed.

Lemma processFile_copies_plain_content_witness :
  let T := targetFile joinClean "/processed-config" "/config/rules.yml" in
  writesOf (snd (processFile joinClean envPort (fun _ => true) "/config/rules.yml"
                   "/processed-config" (ReadOk "groups: []") ∅))
    = [(T, bytesOf (ReadOk "groups: []"), true)]
  /\ fst (processFile joinClean envPort (fun _ => true) "/config/rules.yml"
            "/processed-config" (ReadOk "groups: []") ∅)
     = if true then <[T := bytesOf (ReadOk "groups: []")]> ∅ else ∅.
Proof.
  apply (processFile_copies_plain_content joinClean envPort (fun _ => true)
           "/config/rules.yml" "/processed-config" (ReadOk "groups: []") ∅).
  reflexivity.
Defined.

(** X2: where the substitution comes to a dollar sign followed by one of
    the bytes [* # $ @ ! ? -] or by a digit, it takes that byte as the
    name of a variable and puts the value of the variable in the place of
    both (the empty text when it is not set): a capture reference such as
    [$1] does not survive the substitution. *)
Theorem expand_special_variable
    (env : Environ) (content post : string) (out : list ascii) (c : ascii) :
  Scan (Getenv env) (list_ascii_of_string content) out
    ("$"%char :: c :: list_ascii_of_string post) ->
  isShellSpecialVar c = true ->
  ExpandEnv env content
  = string_of_list_ascii out +:+ Getenv env (String c "") +:+ ExpandEnv env post.
Proof.
  intros Hscan Hc. rewrite (Expand_at_scan _ _ _ _ Hscan). f_equal.
  unfold ExpandEnv, Expand. rewrite list_ascii_of_string_of_list_ascii.
  rewrite expandFrom_dollar, (getShellName_special c _ Hc).
  cbn [fst snd emit skipn drop string_of_list_ascii]. rewrite drop_0.
  now rewrite string_of_bytes_app, string_of_list_ascii_of_string.
Qed.

Lemma expand_special_variable_witness :
  Scan (Getenv envPort) (list_ascii_of_string "a $ b $1:9100")
    (list_ascii_of_string "a $ b ") ("$"%char :: "1"%char :: list_ascii_of_string ":9100")
  /\ ExpandEnv envPort "a $ b $1:9100"
     = string_of_list_ascii (list_ascii_of_string "a $ b ")
       +:+ Getenv envPort (String "1" "") +:+ ExpandEnv envPort ":9100"
  /\ ExpandEnv envPort "a $ b $1:9100" = "a $ b :9100".
Proof.
  assert (Hscan : Scan (Getenv envPort) (list_ascii_of_string "a $ b $1:9100")
                    (list_ascii_of_string "a $ b ")
                    ("$"%char :: "1"%char :: list_ascii_of_string ":9100")).
  { scan_items. }
  split; [exact Hscan|]. split; [|reflexivity].
  exact (expand_special_variable envPort "a $ b $1:9100" ":9100"
           (list_ascii_of_string "a $ b ") "1" Hscan eq_refl).
Defined.

(** X3: where the substitution comes to a dollar sign that is the last
    byte of the content it keeps it, and where it comes to a dollar sign
    followed by an empty pair of braces it drops the three bytes. *)
Theorem expand_edge_references
    (env : Environ) (content1 content2 post : string) (out1 out2 : list ascii) :
  Scan (Getenv env) (list_ascii_of_string content1) out1 ["$"%char] ->
  Scan (Getenv env) (list_ascii_of_string content2) out2
    ("$"%char :: "{"%char :: "}"%char :: list_ascii_of_string post) ->
  ExpandEnv env content1 = string_of_list_ascii out1 +:+ "$"
  /\ ExpandEnv env content2 = string_of_list_ascii out2 +:+ ExpandEnv env post.
Proof.
  intros H1 H2. split.
  - rewrite (Expand_at_scan _ _ _ _ H1). reflexivity.
  - rewrite (Expand_at_scan _ _ _ _ H2). f_equal.
    unfold ExpandEnv, Expand. rewrite list_ascii_of_string_of_list_ascii.
    rewrite expandFrom_dollar, getShellName_empty.
    cbn [fst snd emit skipn drop app]. now rewrite drop_0.
Qed.

Lemma expand_edge_references_witness :
  Scan (Getenv envPort) (list_ascii_of_string "a $ b: 5$")
    (list_ascii_of_string "a $ b: 5") ["$"%char]
  /\ Scan (Getenv envPort) (list_ascii_of_string "a $ b ${}c")
       (list_ascii_of_string "a $ b ")
       ("$"%char :: "{"%char :: "}"%char :: list_ascii_of_string "c")
  /\ ExpandEnv envPort "a $ b: 5$"
     = string_of_list_ascii (list_ascii_of_string "a $ b: 5") +:+ "$"
  /\ ExpandEnv envPort "a $ b ${}c"
     = string_of_list_ascii (list_ascii_of_string "a $ b ") +:+ ExpandEnv envPort "c".
Proof.
  assert (H1 : Scan (Getenv envPort) (list_ascii_of_string "a $ b: 5$")
                 (list_ascii_of_string "a $ b: 5") ["$"%char]).
  { scan_items. }
  assert (H2 : Scan (Getenv envPort) (list_ascii_of_string "a $ b ${}c")
                 (list_ascii_of_string "a $ b ")
                 ("$"%char :: "{"%char :: "}"%char :: list_ascii_of_string "c")).
  { scan_items. }
  split; [exact H1|]. split; [exact H2|].
  exact (expand_edge_references envPort "a $ b: 5$" "a $ b ${}c" "c" _ _ H1 H2).
Defined.

(** *** Splitting a path *)

Lemma lastSlashFrom_spec s : forall i acc,
  (lastSlashFrom i s acc = acc
   /\ forallb (fun c => negb (Ascii.eqb c "/")) s = true)
  \/ exists k,
      lastSlashFrom i s acc = (i + Z.of_nat k)%Z
      /\ (exists before, firstn (S k) s = before ++ ["/"%char])
      /\ forallb (fun c => negb (Ascii.eqb c "/")) (skipn (S k) s) = true.
Proof.
  induction s as [|c s IH]; intros i acc; cbn [lastSlashFrom].
  - left. split; reflexivity.
  - destruct (IH (i + 1)%Z (if Ascii.eqb c "/" then i else acc))
      as [[Hres Hno] | (k & Hres & [before Hbefore] & Hno)].
    + destruct (Ascii.eqb c "/") eqn:Hc.
      * right. exists 0%nat. rewrite Hres. split; [lia|]. split.
        -- exists []. apply Ascii.eqb_eq in Hc. now subst.
        -- exact Hno.
      * left. split; [exact Hres|]. cbn [forallb]. now rewrite Hc.
    + right. exists (S k). rewrite Hres. split; [lia|]. split.
      * exists (c :: before). cbn [firstn take] in *. now rewrite Hbefore.
      * exact Hno.
Qed.

(** X4: [path.Split] cuts a path in two parts that give the path back when
    put together; the file part holds no slash, and the directory part is
    empty or ends with a slash.  So the name [processFile] hands to
    [path.Join] never carries a directory. *)
Theorem Split_parts (path : string) :
  fst (Split path) +:+ snd (Split path) = path
  /\ noSlash (snd (Split path)) = true
  /\ (fst (Split path) = ""
      \/ exists before, fst (Split path) = before +:+ "/").
Proof.
  unfold Split, LastIndexSlash, noSlash. cbn [fst snd].
  split; [|split].
  - rewrite <- string_of_bytes_app, take_drop. apply string_of_list_ascii_of_string.
  - rewrite list_ascii_of_string_of_list_ascii.
    destruct (lastSlashFrom_spec (list_ascii_of_string path) 0 (-1))
      as [[-> Hno] | (k & -> & _ & Hno)].
    + exact Hno.
    + replace (Z.to_nat (0 + Z.of_nat k + 1)) with (S k) by lia. exact Hno.
  - destruct (lastSlashFrom_spec (list_ascii_of_string path) 0 (-1))
      as [[-> Hno] | (k & -> & [before Hbefore] & _)].
    + left. reflexivity.
    + right. replace (Z.to_nat (0 + Z.of_nat k + 1)) with (S k) by lia.
      exists (string_of_list_ascii before). rewrite Hbefore.
      now rewrite string_of_bytes_app.
Qed.

(* ===================================================================== *)
(** ** Further properties: the target files after a walk *)
(* ===================================================================== *)

Section OutcomeFacts.

Variable Join : string -> string -> string.
Variable environ : Environ.
Variable writable : string -> bool.

#[local] Abbreviation walk2 := (processConfigChanges Join environ writable).
#[local] Abbreviation doFiles2 := (processFiles Join environ writable).
#[local] Abbreviation last2 := (lastWrite Join environ writable).
#[local] Abbreviation target2 := (targetFile Join).

(** A target path holds what the last successful write put there, and
    what it held before when no file was written to it. *)
Lemma doFiles_lookup dstPath T l : forall fs,
  fst (doFiles2 dstPath l fs) !! T
  = match last2 dstPath T l with Some d => Some d | None => fs !! T end.
Proof.
  induction l as [|[p r] l IH]; intros fs; [reflexivity|].
  cbn [processFiles lastWrite fst snd]. rewrite andThen_fst, IH.
  destruct (last2 dstPath T l) as [d|]; [reflexivity|].
  rewrite doFile_files. destruct (writable (target2 dstPath p)); cbn [andb].
  - rewrite lookup_insert. unfold bool_decide.
    now destruct (decide_rel eq (target2 dstPath p) T).
  - reflexivity.
Qed.

Lemma walk_lookup srcPath dstPath n fs T :
  fst (walk2 srcPath dstPath n fs) !! T
  = match last2 dstPath T (regularFiles Join srcPath n) with
    | Some d => Some d
    | None => fs !! T
    end.
Proof. rewrite walk_files. apply doFiles_lookup. Qed.

Lemma lastWrite_None dstPath T l :
  Forall (fun f => target2 dstPath (fst f) <> T) l -> last2 dstPath T l = None.
Proof.
  induction 1 as [|[p r] l Hp _ IH]; [reflexivity|].
  cbn [lastWrite fst snd] in *. rewrite IH.
  rewrite bool_decide_eq_false_2 by exact Hp. now rewrite andb_false_r.
Qed.

Lemma lastWrite_is_Some dstPath T l d :
  last2 dstPath T l = Some d ->
  exists f, f ∈ l /\ target2 dstPath (fst f) = T
            /\ d = ExpandEnv environ (bytesOf (snd f)).
Proof.
  induction l as [|f l IH]; [discriminate|]. cbn [lastWrite].
  destruct (last2 dstPath T l) as [d'|].
  - intros H. destruct (IH H) as (f' & Hin & Hf'). exists f'. split; [now right | exact Hf'].
  - destruct (writable _); cbn [andb]; [|discriminate].
    destruct (bool_decide_reflect (target2 dstPath (fst f) = T)); [|discriminate].
    intros [= <-]. exists f. repeat split; [now left | assumption].
Qed.

Lemma lastWrite_unique dstPath l : forall p r,
  NoDup ((fun f => target2 dstPath (fst f)) <$> l) ->
  (p, r) ∈ l ->
  writable (target2 dstPath p) = true ->
  last2 dstPath (target2 dstPath p) l = Some (ExpandEnv environ (bytesOf r)).
Proof.
  induction l as [|f l IH]; intros p r Hnd Hin Hw.
  - now apply elem_of_nil in Hin.
  - rewrite fmap_cons in Hnd. apply NoDup_cons in Hnd as [Hnotin Hnd].
    cbn [lastWrite]. apply elem_of_cons in Hin as [<- | Hin].
    + rewrite lastWrite_None.
      * cbn [fst snd]. rewrite Hw, bool_decide_eq_true_2 by reflexivity. reflexivity.
      * apply Forall_forall. intros g Hg Heq. apply Hnotin.
        apply list_elem_of_fmap. exists g. cbn [fst] in Heq. now split.
    + now rewrite (IH p r Hnd Hin Hw).
Qed.

End OutcomeFacts.

(** X5: when no two regular files of the tree share a target path and
    every target path can be written, the target holds, after the walk,
    the expansion of every regular file the walk could reach. *)
Theorem walk_writes_every_file
    (Join : string -> string -> string) (environ : Environ)
    (writable : string -> bool) (srcPath dstPath : string) (n : Node) (fs : Files)
    (p : string) (r : ReadResult) :
  NoDup ((fun f => targetFile Join dstPath (fst f)) <$> regularFiles Join srcPath n) ->
  (p, r) ∈ regularFiles Join srcPath n ->
  writable (targetFile Join dstPath p) = true ->
  fst (processConfigChanges Join environ writable srcPath dstPath n fs)
    !! targetFile Join dstPath p
  = Some (ExpandEnv environ (bytesOf r)).
Proof.
  intros Hnd Hin Hw. rewrite walk_lookup.
  now rewrite (lastWrite_unique Join environ writable dstPath _ p r Hnd Hin Hw).
Qed.

Lemma walk_writes_every_file_witness :
  fst (processConfigChanges joinClean envPort (fun _ => true)
         "/config" "/processed-config" unreadableFirst ∅)
    !! targetFile joinClean "/processed-config" "/config/b.yml"
  = Some (ExpandEnv envPort (bytesOf (ReadOk "job: ${PORT}"))).
Proof.
  apply (walk_writes_every_file joinClean envPort (fun _ => true)
           "/config" "/processed-config" unreadableFirst ∅
           "/config/b.yml" (ReadOk "job: ${PORT}")).
  - vm_compute. apply NoDup_cons. split; [|apply NoDup_singleton].
    intros H. apply list_elem_of_singleton in H. discriminate.
  - vm_compute. right. left.
  - reflexivity.
Defined.

(** X6: a target path that is the target of no regular file of the tree
    holds after the walk what it held before. *)
Theorem walk_keeps_other_targets
    (Join : string -> string -> string) (environ : Environ)
    (writable : string -> bool) (srcPath dstPath : string) (n : Node) (fs : Files)
    (T : string) :
  Forall (fun f => targetFile Join dstPath (fst f) <> T) (regularFiles Join srcPath n) ->
  fst (processConfigChanges Join environ writable srcPath dstPath n fs) !! T = fs !! T.
Proof.
  intros H. rewrite walk_lookup. now rewrite lastWrite_None.
Qed.

Lemma walk_keeps_other_targets_witness :
  fst (processConfigChanges joinClean envPort (fun _ => true)
         "/config" "/processed-config" oneFile
         (<["/processed-config/old.yml" := "stale"]> ∅))
    !! "/processed-config/old.yml"
  = (<["/processed-config/old.yml" := "stale"]> ∅ : Files) !! "/processed-config/old.yml".
Proof.
  apply (walk_keeps_other_targets joinClean envPort (fun _ => true)
           "/config" "/processed-config" oneFile
           (<["/processed-config/old.yml" := "stale"]> ∅) "/processed-config/old.yml").
  vm_compute. constructor; [discriminate | constructor].
Defined.

(** X7: the walk removes no target file: every path that held a file
    before the walk holds one after it, also when its source is gone. *)
Theorem walk_removes_no_target
    (Join : string -> string -> string) (environ : Environ)
    (writable : string -> bool) (srcPath dstPath : string) (n : Node) (fs : Files) :
  dom fs ⊆ dom (fst (processConfigChanges Join environ writable srcPath dstPath n fs)).
Proof.
  intros T HT. apply elem_of_dom in HT. apply elem_of_dom.
  rewrite walk_lookup. now destruct (lastWrite _ _ _ _ _ _).
Qed.

(** X8: walking the same tree a second time, in the same environment and
    with the same writable paths, leaves the target files as the first
    walk left them. *)
Theorem walk_twice_same_files
    (Join : string -> string -> string) (environ : Environ)
    (writable : string -> bool) (srcPath dstPath : string) (n : Node) (fs : Files) :
  fst (processConfigChanges Join environ writable srcPath dstPath n
         (fst (processConfigChanges Join environ writable srcPath dstPath n fs)))
  = fst (processConfigChanges Join environ writable srcPath dstPath n fs).
Proof.
  apply map_eq. intros T. rewrite !walk_lookup.
  now destruct (lastWrite _ _ _ _ _ _).
Qed.

(* ===================================================================== *)
(** ** Further properties: failures during a walk *)
(* ===================================================================== *)

Section FailureFacts.

Variable Join : string -> string -> string.
Variable environ : Environ.
Variable writable : string -> bool.

#[local] Abbreviation walk3 := (processConfigChanges Join environ writable).
#[local] Abbreviation walkEntries3 := (processEntries Join environ writable).

Lemma healthy_dir entries :
  healthy (Dir true entries) = healthyEntries entries.
Proof.
  cbn [healthy andb]. induction entries as [|[name child] rest IH]; [reflexivity|].
  cbn [healthyEntries]. now rewrite IH.
Qed.

Lemma walkEntries_errors srcPath dstPath entries fs :
  errorsOf (snd (walk3 srcPath dstPath (Dir true entries) fs))
  = errorsOf (snd (walkEntries3 srcPath dstPath entries fs)).
Proof. rewrite walk_dir, !andThen_snd, !errorsOf_app. reflexivity. Qed.

(** X10: the walk logs no error exactly when it meets no failure on the
    tree: every path it reaches can be stat-ed, every directory listed
    and every file read.  Whether the writes succeed plays no part. *)
Theorem walk_logs_error_iff_unhealthy n : forall srcPath dstPath fs,
  errorsOf (snd (walk3 srcPath dstPath n fs)) = [] <-> healthy n = true.
Proof.
  induction n as [| r | listable entries IH] using Node_induction;
    intros srcPath dstPath fs.
  - cbn. split; discriminate.
  - cbn [processConfigChanges healthy].
    rewrite !andThen_snd, !errorsOf_app, doFile_errors. cbn.
    destruct r; split; intros; try reflexivity; discriminate.
  - destruct listable.
    + rewrite walkEntries_errors, healthy_dir. revert fs.
      induction IH as [|[name child] rest Hchild _ IHrest]; intros fs.
      * cbn. split; reflexivity.
      * cbn [processEntries healthyEntries]. rewrite andThen_snd, errorsOf_app.
        cbn [snd] in Hchild. rewrite andb_true_iff, <- IHrest, <- Hchild.
        split.
        -- intros H. apply app_eq_nil in H. exact H.
        -- intros [-> ->]. reflexivity.
    + cbn. split; discriminate.
Qed.

Lemma walk_no_post n : forall srcPath dstPath fs,
  Forall notPost (snd (walk3 srcPath dstPath n fs)).
Proof.
  induction n as [| r | listable entries IH] using Node_induction;
    intros srcPath dstPath fs.
  - cbn. repeat constructor.
  - cbn [processConfigChanges]. unfold processFile, writeFile.
    rewrite !andThen_snd. cbn [effect skip fst snd].
    destruct r, (writable _); repeat (apply Forall_app; split);
      repeat constructor.
  - destruct listable.
    + rewrite walk_dir, !andThen_snd. cbn [effect fst snd].
      repeat (apply Forall_app; split); try (repeat constructor).
      generalize fs.
      induction IH as [|[name child] rest Hchild _ IHrest]; intros fs'.
      * constructor.
      * cbn [processEntries]. rewrite andThen_snd. apply Forall_app. split.
        -- apply Hchild.
        -- apply IHrest.
    + cbn. repeat constructor.
Qed.

End FailureFacts.

(** X9: an entry of a directory that cannot be stat-ed, or a subdirectory
    that cannot be listed, costs one error in the log and nothing else:
    nothing is read or written for it, the target files stay as they are,
    and the entries listed before and after it are read all the same. *)
Theorem unreachable_entry_is_skipped
    (Join : string -> string -> string) (environ : Environ)
    (writable : string -> bool) (srcPath dstPath name : string)
    (below before after : list (string * Node)) (fs : Files) :
  let path := Join srcPath name in
  let walk := processConfigChanges Join environ writable in
  let walkEntries := processEntries Join environ writable srcPath dstPath in
  (fst (walk path dstPath Missing fs) = fs
   /\ errorsOf (snd (walk path dstPath Missing fs)) = [MsgErrProcessing path]
   /\ readsOf (snd (walk path dstPath Missing fs)) = []
   /\ writesOf (snd (walk path dstPath Missing fs)) = []
   /\ readsOf (snd (walkEntries (before ++ (name, Missing) :: after) fs))
      = (fst <$> entryFiles Join srcPath before) ++ (fst <$> entryFiles Join srcPath after))
  /\ (fst (walk path dstPath (Dir false below) fs) = fs
      /\ errorsOf (snd (walk path dstPath (Dir false below) fs)) = [MsgFailedList path]
      /\ readsOf (snd (walk path dstPath (Dir false below) fs)) = []
      /\ writesOf (snd (walk path dstPath (Dir false below) fs)) = []
      /\ readsOf (snd (walkEntries (before ++ (name, Dir false below) :: after) fs))
         = (fst <$> entryFiles Join srcPath before)
           ++ (fst <$> entryFiles Join srcPath after)).
Proof.
  intros path walk walkEntries. subst path walk walkEntries.
  split; (repeat split; try reflexivity);
    rewrite walkEntries_reads, entryFiles_app, fmap_app; reflexivity.
Qed.

(** X11: a pass sends exactly one reload request, and sends it after the
    walk is over: everything the walk does, all its writes included,
    comes before the request, also when the walk failed or wrote
    nothing. *)
Theorem pass_posts_once_after_walk
    (Join : string -> string -> string) (environ : Environ) (cfg : Config)
    (pe : PassEnv) (c : Coordinator) (fs : Files) :
  exists walked last,
    snd (runPass Join environ cfg pe c fs)
    = walked ++ [Log Debug MsgPosting; Post (prometheusUrl cfg) (postResult pe); last]
    /\ walked = snd (processConfigChanges Join environ (canWrite pe)
                       (watchedPath cfg) (targetPath cfg) (source pe) fs)
    /\ Forall notPost walked
    /\ notPost last
    /\ writesOf (snd (runPass Join environ cfg pe c fs)) = writesOf walked.
Proof.
  rewrite runPass_trace. unfold notifyPrometheus.
  eexists _, (match postResult pe with
              | None => Log Error MsgErrPosting
              | Some code => Log Debug (MsgStatus code)
              end).
  split; [|split; [reflexivity|split; [apply walk_no_post|split]]].
  - cbn [app]. now destruct (postResult pe).
  - now destruct (postResult pe).
  - rewrite writesOf_app. destruct (postResult pe); cbn; now rewrite app_nil_r.
Qed.

(* ===================================================================== *)
(** ** Further properties: the loop of [main] *)
(* ===================================================================== *)

(** X12: a signal is taken only at the [select], never inside a pass; once
    taken, the program logs the shutdown and exits with status 0, leaving
    the target files and the coordinator as they are, and nothing happens
    afterwards. *)
Theorem signal_exits_between_passes
    (Join : string -> string -> string) (environ : Environ) (cfg : Config) (s : Sys) :
  status s = Running ->
  match phase s with
  | InPass => step Join environ cfg Signal s = None
  | Selecting =>
      exists s',
        step Join environ cfg Signal s = Some s'
        /\ status s' = Exited 0
        /\ trace s' = trace s ++ [Log Info MsgShutdown]
        /\ files s' = files s
        /\ coord s' = coord s
        /\ (forall a, step Join environ cfg a s' = None)
  end.
Proof.
  intros Hst. destruct (phase s) eqn:Hp.
  - unfold step at 1. rewrite Hst, Hp.
    eexists. split; [reflexivity|]. repeat split.
  - unfold step. now rewrite Hst, Hp.
Qed.

Lemma signal_exits_between_passes_witness :
  match phase duringFirstPass with
  | InPass => step joinClean envPort defaultConfig Signal duringFirstPass = None
  | Selecting =>
      exists s',
        step joinClean envPort defaultConfig Signal duringFirstPass = Some s'
        /\ status s' = Exited 0
        /\ trace s' = trace duringFirstPass ++ [Log Info MsgShutdown]
        /\ files s' = files duringFirstPass
        /\ coord s' = coord duringFirstPass
        /\ (forall a, step joinClean envPort defaultConfig a s' = None)
  end.
Proof.
  apply (signal_exits_between_passes joinClean envPort defaultConfig duringFirstPass).
  reflexivity.
Defined.

(** X13: when the file watcher cannot be created the program logs a fatal
    error and exits with status 1 before its loop: no step follows and the
    target files are untouched.  A watched path that does not exist, or
    cannot be added to the watcher, does not stop the program: it starts
    as it does otherwise, with one more line in the log, which is no
    error line. *)
Theorem startup_watch_errors
    (Join : string -> string -> string) (environ : Environ) (cfg : Config)
    (w0 m0 : Z) (add : AddResult) (fs0 : Files) :
  let failed := main cfg w0 m0 false add fs0 in
  let begun := main cfg w0 m0 true add fs0 in
  let plain := main cfg w0 m0 true AddOk fs0 in
  (status failed = Exited 1
   /\ trace failed = [Log Info MsgBanner; Log Info MsgGithub;
                      Log Debug (MsgCreatingWatcher (watchedPath cfg));
                      Log Fatal MsgErrWatcher]
   /\ files failed = fs0
   /\ (forall a, step Join environ cfg a failed = None))
  /\ (status begun = Running
      /\ coord begun = coord plain /\ phase begun = phase plain
      /\ listener begun = listener plain /\ changeTime begun = changeTime plain
      /\ files begun = files plain
      /\ trace begun
         = trace plain ++
           match add with
           | AddOk => []
           | AddNotExist => [Log Info (MsgNoLongerExists (watchedPath cfg))]
           | AddFailed => [Log Warn (MsgFailedWatch (watchedPath cfg))]
           end).
Proof.
  intros failed begun plain. subst failed begun plain. unfold main. cbn.
  split.
  - repeat split.
  - repeat split.
Qed.

Lemma Reset_Reset t : Reset (Reset t) = Reset t.
Proof. reflexivity. Qed.

Lemma changeCase_absorbs t1 t2 c : changeCase t2 (changeCase t1 c) = changeCase t2 c.
Proof. reflexivity. Qed.

(** X14: change times received one after the other, with no tick taken in
    between, leave the coordinator as the last of them alone would: the
    last change time is the one recorded, the timer is armed once, and
    [lastConfigProcess] is as before. *)
Theorem burst_collapses_to_last_change
    (ts : list Time) (t : Time) (c : Coordinator) :
  afterChanges (ts ++ [t]) c = changeCase t c
  /\ lastConfigChange (afterChanges (ts ++ [t]) c) = t
  /\ lastConfigProcess (afterChanges (ts ++ [t]) c) = lastConfigProcess c
  /\ delayTimer (afterChanges (ts ++ [t]) c)
     = {| armed := true; tick := tick (delayTimer c) |}.
Proof.
  assert (H : afterChanges (ts ++ [t]) c = changeCase t c).
  { unfold afterChanges. revert c. induction ts as [|t1 ts IH]; intros c.
    - reflexivity.
    - cbn [app fold_left]. rewrite IH. apply changeCase_absorbs. }
  rewrite H. repeat split.
Qed.

(** X15: a change time the coordinator receives starts a pass at the next
    tick exactly when [lastConfigProcess] is before it.  A change time
    that is not after the end of the last pass (a file written while the
    pass was running, a file with an old modification time) is recorded
    and starts no pass. *)
Theorem change_starts_pass_iff_newer
    (Join : string -> string -> string) (environ : Environ) (cfg : Config)
    (s : Sys) (t : Time) :
  status s = Running ->
  phase s = Selecting ->
  buf (changeTime s) = [] ->
  listener s = Sending t ->
  exists s',
    exec Join environ cfg [Receive t; Expire; TimerFire] s = Some s'
    /\ lastConfigChange (coord s') = t
    /\ lastConfigProcess (coord s') = lastConfigProcess (coord s)
    /\ files s' = files s
    /\ trace s' = trace s
    /\ phase s' = if Before (lastConfigProcess (coord s)) t then InPass else Selecting.
Proof.
  intros Hst Hp Hb Hl. cbn [exec]. unfold step at 1.
  rewrite Hst, Hp, Hb, Hl, decide_True by reflexivity.
  unfold step at 1.
  cbn [status setCoord setListener coord changeCase delayTimer Reset armed].
  rewrite Hst.
  unfold step at 1.
  cbn [status phase setTimer setCoord setListener coord lastConfigProcess
       lastConfigChange delayTimer expired tick].
  rewrite Hst, Hp.
  cbn [changeCase lastConfigProcess lastConfigChange].
  destruct (Before (lastConfigProcess (coord s)) t); eexists; repeat split.
  exact Hp.
Qed.

Lemma change_starts_pass_iff_newer_witness :
  exists s',
    exec joinClean envPort defaultConfig
      [Receive (modTime 1500); Expire; TimerFire] afterLateChange = Some s'
    /\ lastConfigChange (coord s') = modTime 1500
    /\ lastConfigProcess (coord s') = lastConfigProcess (coord afterLateChange)
    /\ files s' = files afterLateChange
    /\ trace s' = trace afterLateChange
    /\ phase s' = if Before (lastConfigProcess (coord afterLateChange)) (modTime 1500)
                  then InPass else Selecting.
Proof.
  apply (change_starts_pass_iff_newer joinClean envPort defaultConfig
           afterLateChange (modTime 1500)); reflexivity.
Defined.

(** A file written at 1500 while the first pass, over at 2000, was
    running: the change is received after the pass and starts none. *)
Example change_during_pass_starts_no_pass :
  lastConfigProcess (coord afterLateChange) = now 2000 20
  /\ listener afterLateChange = Sending (modTime 1500)
  /\ match exec joinClean envPort defaultConfig
             [Receive (modTime 1500); Expire; TimerFire] afterLateChange with
     | Some s' => phase s' = Selecting /\ step joinClean envPort defaultConfig
                                            (PassDone (passEnv oneFile 3000 30)) s' = None
     | None => False
     end.
Proof. repeat split; vm_compute; reflexivity. Qed.

(** X16: the coordinator is the only writer.  A step of the listener
    leaves the coordinator, the channel and the target files as they are;
    the target files and [lastConfigProcess] change only when a pass
    comes to its end, and [lastConfigChange] only when the coordinator
    receives a change time, which it then holds. *)
Theorem only_coordinator_steps_write
    (Join : string -> string -> string) (environ : Environ) (cfg : Config)
    (a : Action) (s s' : Sys) :
  step Join environ cfg a s = Some s' ->
  (if isPassDone a then True
   else files s' = files s
        /\ lastConfigProcess (coord s') = lastConfigProcess (coord s))
  /\ match a with
     | Receive t => lastConfigChange (coord s') = t
     | _ => lastConfigChange (coord s') = lastConfigChange (coord s)
     end
  /\ (if isFromWatcher a
      then coord s' = coord s /\ phase s' = phase s
           /\ changeTime s' = changeTime s /\ files s' = files s
      else True).
Proof.
  intros H. step_cases H; cbn [isPassDone isFromWatcher]; repeat split;
    try reflexivity.
  pose proof (runPass_coordinator Join environ cfg pe (coord s) (files s)) as Hrun.
  rewrite E2 in Hrun. cbn [fst] in Hrun. subst c. reflexivity.
Qed.

Lemma only_coordinator_steps_write_witness :
  let a := FromWatcher (WatcherEvent "/config/a.yml" (Some 1500%Z)) in
  let s := afterFirstPass in
  let s' := afterLateChange in
  (if isPassDone a then True
   else files s' = files s
        /\ lastConfigProcess (coord s') = lastConfigProcess (coord s))
  /\ match a with
     | Receive t => lastConfigChange (coord s') = t
     | _ => lastConfigChange (coord s') = lastConfigChange (coord s)
     end
  /\ (if isFromWatcher a
      then coord s' = coord s /\ phase s' = phase s
           /\ changeTime s' = changeTime s /\ files s' = files s
      else True).
Proof.
  apply (only_coordinator_steps_write joinClean envPort defaultConfig
           (FromWatcher (WatcherEvent "/config/a.yml" (Some 1500%Z)))
           afterFirstPass afterLateChange).
  vm_compute. reflexivity.
Defined.

(** X17: the flags [expand-vars], [copy-files] and [debug] are read
    nowhere: whatever their values, the program starts in the same state
    and every step has the same outcome.  Files are expanded and written
    also with [expand-vars] and [copy-files] set to false. *)
Theorem unused_flags_do_not_matter
    (Join : string -> string -> string) (environ : Environ) (cfg : Config)
    (expand copy debug : bool) (a : Action) (s : Sys)
    (w0 m0 : Z) (ok : bool) (add : AddResult) (fs0 : Files) :
  step Join environ (withFlags expand copy debug cfg) a s = step Join environ cfg a s
  /\ main (withFlags expand copy debug cfg) w0 m0 ok add fs0 = main cfg w0 m0 ok add fs0.
Proof.
  split; [|reflexivity].
  unfold step. destruct (status s); [|reflexivity]. destruct a; reflexivity.
Qed.

(* ===================================================================== *)
(** ** Further properties: how many passes run *)
(* ===================================================================== *)

Section CountingFacts.

Variable Join : string -> string -> string.
Variable environ : Environ.
Variable cfg : Config.

Lemma step_owed a s s' :
  step Join environ cfg a s = Some s' ->
  (passes [a] + owed s' <= receipts [a] + owed s)%nat.
Proof.
  intros H. unfold owed, passes, receipts.
  step_cases H;
    cbn [List.filter isPassDone flat_map received length app
         phase coord delayTimer tick armed setListener setBuf setCoord setPhase
         setTimer logged exitWith changeCase Reset expired drained
         lastConfigProcess lastConfigChange];
    repeat match goal with
           | E : phase _ = _ |- _ => rewrite E
           | E : tick _ = _ |- _ => rewrite E
           | E : armed _ = _ |- _ => rewrite E
           end;
    try match goal with
        | E : runPass _ _ _ ?pe ?c ?fs = (?c', _, _) |- _ =>
            let Hrun := fresh "Hrun" in
            pose proof (runPass_coordinator Join environ cfg pe c fs) as Hrun;
            rewrite E in Hrun; cbn [fst] in Hrun; subst c';
            cbn [delayTimer]
        end;
    repeat match goal with
           | |- context [if ?b then _ else _] => destruct b
           | |- context [match ?p with InPass => _ | Selecting => _ end] => destruct p
           end;
    cbn; lia.
Qed.

Lemma passes_cons a acts : passes (a :: acts) = (passes [a] + passes acts)%nat.
Proof. unfold passes. cbn [List.filter]. now destruct (isPassDone a). Qed.

Lemma receipts_cons a acts : receipts (a :: acts) = (receipts [a] + receipts acts)%nat.
Proof.
  unfold receipts. cbn [flat_map]. now rewrite app_nil_r, length_app.
Qed.

Lemma exec_owed acts : forall s s',
  exec Join environ cfg acts s = Some s' ->
  (passes acts + owed s' <= receipts acts + owed s)%nat.
Proof.
  induction acts as [|a acts IH]; intros s s' H.
  - inversion H; subst. cbn. lia.
  - cbn [exec] in H. destruct (step Join environ cfg a s) as [s1|] eqn:E; [|discriminate].
    pose proof (step_owed _ _ _ E). pose proof (IH _ _ H).
    rewrite passes_cons, receipts_cons. lia.
Qed.

(** While the timer has not reached its deadline no tick can be taken. *)
Lemma step_quiet a s s' :
  step Join environ cfg a s = Some s' ->
  isExpire a = false ->
  phase s = Selecting -> tick (delayTimer (coord s)) = false ->
  phase s' = Selecting /\ tick (delayTimer (coord s')) = false
  /\ files s' = files s /\ isTimerFire a = false /\ isPassDone a = false.
Proof.
  intros H Ha Hp Ht. step_cases H; try discriminate; cbn; repeat split;
    try assumption; congruence.
Qed.

End CountingFacts.

(** X18: in every run of the program, from its start, the passes that
    came to their end are at most one more than the change times the
    coordinator received: the pass of the start, and at most one pass for
    each change time. *)
Theorem passes_bounded_by_changes
    (Join : string -> string -> string) (environ : Environ) (cfg : Config)
    (w0 m0 : Z) (add : AddResult) (fs0 : Files) (acts : list Action) (s : Sys) :
  exec Join environ cfg acts (main cfg w0 m0 true add fs0) = Some s ->
  (passes acts + owed s <= receipts acts + 1)%nat.
Proof.
  intros H. apply exec_owed in H. exact H.
Qed.

Lemma passes_bounded_by_changes_witness :
  let acts := [Expire; TimerFire; PassDone (passEnv oneFile 2000 20);
               FromWatcher (WatcherEvent "/config/a.yml" (Some 1500%Z))] in
  (passes acts + owed afterLateChange <= receipts acts + 1)%nat.
Proof.
  apply (passes_bounded_by_changes joinClean envPort defaultConfig 1000 10 AddOk ∅
           [Expire; TimerFire; PassDone (passEnv oneFile 2000 20);
            FromWatcher (WatcherEvent "/config/a.yml" (Some 1500%Z))]
           afterLateChange).
  vm_compute. reflexivity.
Defined.

(** X19: as long as the timer does not reach its deadline, whatever the
    watcher reports and however many change times the coordinator
    receives, no tick is taken, no pass runs and the target files stay as
    they are. *)
Theorem no_pass_before_timer_expires
    (Join : string -> string -> string) (environ : Environ) (cfg : Config)
    (acts : list Action) (s s' : Sys) :
  phase s = Selecting ->
  tick (delayTimer (coord s)) = false ->
  forallb (fun a => negb (isExpire a)) acts = true ->
  exec Join environ cfg acts s = Some s' ->
  fires acts = 0%nat /\ passes acts = 0%nat
  /\ files s' = files s /\ phase s' = Selecting.
Proof.
  revert s. induction acts as [|a acts IH]; intros s Hp Ht Hacts H.
  - inversion H; subst. now repeat split.
  - cbn [forallb] in Hacts. apply andb_prop in Hacts as [Ha Hacts].
    apply negb_true_iff in Ha. cbn [exec] in H.
    destruct (step Join environ cfg a s) as [s1|] eqn:E; [|discriminate].
    destruct (step_quiet Join environ cfg _ _ _ E Ha Hp Ht)
      as (Hp1 & Ht1 & Hf1 & Hfire & Hdone).
    destruct (IH s1 Hp1 Ht1 Hacts H) as (Hfires & Hpasses & Hfiles & Hphase).
    unfold fires, passes in *. cbn [List.filter]. rewrite Hfire, Hdone.
    repeat split; try assumption. congruence.
Qed.

Lemma no_pass_before_timer_expires_witness :
  let acts := [Receive (modTime 1500); FromWatcher (WatcherEvent "/config/b.yml" None)] in
  fires acts = 0%nat /\ passes acts = 0%nat
  /\ files afterBurst = files afterLateChange /\ phase afterBurst = Selecting.
Proof.
  apply (no_pass_before_timer_expires joinClean envPort defaultConfig
           [Receive (modTime 1500); FromWatcher (WatcherEvent "/config/b.yml" None)]
           afterLateChange afterBurst).
  - reflexivity.
  - reflexivity.
  - reflexivity.
  - vm_compute. reflexivity.
Defined.
